(** * Work-efficient scan and stream compaction (stream_compaction/efficient.cu)

    A shallow embedding of the CUDA kernels [kernelEfficientScan] and
    [kernelEfficientCompact] and of the host functions [scan] and [compact],
    with the properties the specification states about them.

    Modelling conventions
    - [int] is a 32-bit two's complement integer: a [Z] with the wrap-around
      written out ([Int.wrap]), for the data and for the index arithmetic.
    - A device or host array is a [list Z].  A load or store outside the
      array is a fault: the operation has no result ([None]), and neither
      has the kernel or host function that performs it.
    - The arrays a kernel receives are distinct allocations ([cudaMalloc]),
      so a kernel is a function from their contents to the new contents of
      the arrays it writes.
    - A kernel launched as [<<<1, blockDim>>>] runs one block of [blockDim]
      threads.  The code between two [__syncthreads()] barriers is a phase;
      a phase runs the body of every thread, in the order [0 .. blockDim-1]
      of [threadIdx.x].  For the scan kernel and for the scatter any other
      order of the threads gives the same result
      ([kernelEfficientScan_schedule], [kernScatter_schedule]).
    - The locals [d] and [offset] depend on [N] only and take the same
      values in every thread, so each loop is modelled once for the block,
      its body being one phase.
    - The last level of the up-sweep (d = 1) and the clearing of the last
      cell are not separated by a barrier; thread 0 alone is active in
      both, in program order, so they are modelled as two phases.
    - The loops of the kernel are recursive on a number of iterations
      allowed (fuel); the theorems show that the fuel given suffices.
    - The timer and the device-status check are outside the model. *)

From Stdlib Require Import ZArith Lia.
From stdpp Require Import base tactics option list numbers list_numbers.

Local Open Scope Z_scope.

(** ** 32-bit integers *)

Module Int.

Definition min_signed : Z := - 2 ^ 31.
Definition max_signed : Z := 2 ^ 31 - 1.

Definition in_range (z : Z) : Prop := min_signed ≤ z ≤ max_signed.

(** Reduction of a mathematical integer to the [int] representing it. *)
Definition wrap (z : Z) : Z := (z + 2 ^ 31) `mod` 2 ^ 32 - 2 ^ 31.

Definition add (x y : Z) : Z := wrap (x + y).
Definition sub (x y : Z) : Z := wrap (x - y).
Definition mul (x y : Z) : Z := wrap (x * y).
(** C's [/] truncates toward zero. *)
Definition div (x y : Z) : Z := wrap (x `quot` y).
(** [>>] on an [int] is an arithmetic shift. *)
Definition shr (x k : Z) : Z := Z.shiftr x k.

End Int.

(** ** Arrays *)

Definition load (g : list Z) (i : Z) : option Z :=
  if bool_decide (0 ≤ i) then g !! Z.to_nat i else None.

Definition store (g : list Z) (i : Z) (v : Z) : option (list Z) :=
  if bool_decide (0 ≤ i < Z.of_nat (length g))
  then Some (<[Z.to_nat i := v]> g) else None.

(** [cudaMemcpy dst src count]: the first [count] cells of [src] overwrite
    the first [count] cells of [dst]. *)
Definition cudaMemcpy (dst src : list Z) (count : Z) : option (list Z) :=
  if bool_decide (0 ≤ count ≤ Z.of_nat (length src)
                  ∧ count ≤ Z.of_nat (length dst))
  then Some (take (Z.to_nat count) src ++ drop (Z.to_nat count) dst)
  else None.

(** [cudaMalloc] returns [n] cells whose contents are not specified: they are
    read off an arbitrary function [junk].  The host functions take one such
    function per allocation, numbered in the order of their [cudaMalloc]
    calls. *)
Definition cudaMalloc (junk : nat → Z) (n : Z) : list Z :=
  junk <$> seq 0 (Z.to_nat n).

(** ** One block of threads *)

(** The thread indices [threadIdx.x] of a block of [blockDim] threads. *)
Definition threads (blockDim : Z) : list Z := seqZ 0 blockDim.

(** A phase: every thread of the schedule [ts] runs [body] on the shared
    memory. *)
Fixpoint run_threads {S : Type} (body : Z → S → option S) (ts : list Z) (s : S)
  : option S :=
  match ts with
  | [] => Some s
  | index :: ts' => s' ← body index s; run_threads body ts' s'
  end.

(** ** kernelEfficientScan *)

(** Lines 57-60 and 73-76: the pair of cells that thread [index] works on at
    a level, when it is active and the guard [a >= 0 && b >= 0] holds. *)
Definition sweep_indices (n d offset index : Z) : option (Z * Z) :=
  if bool_decide (index < d) then
    let a := Int.sub (Int.sub n 1) (Int.mul index offset) in
    let b := Int.sub a (Int.div offset 2) in
    if bool_decide (0 ≤ a) && bool_decide (0 ≤ b) then Some (a, b) else None
  else None.

(** [g_odata[index] = g_idata[index];] *)
Definition copy_thread (g_idata : list Z) (index : Z) (g : list Z)
  : option (list Z) :=
  v ← load g_idata index; store g index v.

(** [g_odata[a] += g_odata[b];] *)
Definition upsweep_thread (n d offset : Z) (index : Z) (g : list Z)
  : option (list Z) :=
  match sweep_indices n d offset index with
  | Some (a, b) =>
      va ← load g a; vb ← load g b; store g a (Int.add va vb)
  | None => Some g
  end.

(** [if (index == 0 && n > 0) g_odata[n - 1] = 0;] *)
Definition clear_thread (n : Z) (index : Z) (g : list Z) : option (list Z) :=
  if bool_decide (index = 0) && bool_decide (0 < n)
  then store g (Int.sub n 1) 0 else Some g.

(** [int tmp = g_odata[b]; g_odata[b] = g_odata[a]; g_odata[a] += tmp;] *)
Definition downsweep_thread (n d offset : Z) (index : Z) (g : list Z)
  : option (list Z) :=
  match sweep_indices n d offset index with
  | Some (a, b) =>
      tmp ← load g b;
      va ← load g a;
      g1 ← store g b va;
      va' ← load g1 a;
      store g1 a (Int.add va' tmp)
  | None => Some g
  end.

(** [for (int d = N / 2; d >= 1; d >>= 1) { ...; offset *= 2; }]
    The result carries the value of [offset] after the loop.  [fuel] bounds
    the number of iterations; running out of it gives no result. *)
Fixpoint upsweep (fuel : nat) (ts : list Z) (n d offset : Z) (g : list Z)
  : option (Z * list Z) :=
  if bool_decide (1 ≤ d) then
    match fuel with
    | O => None
    | S fuel' =>
        g' ← run_threads (upsweep_thread n d offset) ts g;
        upsweep fuel' ts n (Int.shr d 1) (Int.mul offset 2) g'
    end
  else Some (offset, g).

(** [for (int d = 1; d <= N / 2; d *= 2) { ...; offset /= 2; }] *)
Fixpoint downsweep (fuel : nat) (ts : list Z) (n N d offset : Z) (g : list Z)
  : option (list Z) :=
  if bool_decide (d ≤ Int.div N 2) then
    match fuel with
    | O => None
    | S fuel' =>
        g' ← run_threads (downsweep_thread n d offset) ts g;
        downsweep fuel' ts n N (Int.mul d 2) (Int.div offset 2) g'
    end
  else Some g.

(** The kernel body, for the block whose threads run in the order [ts].
    [d] is at most [N / 2] in both loops and changes by a factor 2 at every
    iteration, so [N] iterations are more than either loop makes. *)
Definition kernelEfficientScan_on (ts : list Z)
    (g_odata g_idata : list Z) (n N : Z) : option (list Z) :=
  g ← run_threads (copy_thread g_idata) ts g_odata;
  '(offset, g) ← upsweep (Z.to_nat N) ts n (Int.div N 2) 2 g;
  g ← run_threads (clear_thread n) ts g;
  downsweep (Z.to_nat N) ts n N 1 (Int.div offset 2) g.

(** [kernelEfficientScan<<<1, blockDim>>>(g_odata, g_idata, n, N)]; the
    result is the final contents of [g_odata]. *)
Definition kernelEfficientScan (blockDim : Z)
    (g_odata g_idata : list Z) (n N : Z) : option (list Z) :=
  kernelEfficientScan_on (threads blockDim) g_odata g_idata n N.

(** ** Host side *)

(** Modelled from the spec: [ilog2ceil] is declared in common.h, which is not
    among the sources; the specification gives N = 2^⌈log2 n⌉, the smallest
    power of two that is at least n. *)
Definition ilog2ceil (n : Z) : Z := Z.log2_up n.

(** [(int) pow(2, k)] *)
Definition pow2 (k : Z) : Z := Int.wrap (2 ^ k).

(** The largest block the device schedules.  Modelled from the spec: the
    ceiling is a property of the hardware, "on the order of 1024".  The
    proofs use only that it is at most [2 ^ 29] ([ceiling_fits]). *)
Definition maxThreadsPerBlock : Z := 1024.

Section Host.

(** Contents of freshly allocated device memory, per allocation. *)
Variable junk : nat → nat → Z.

(** [scan(n, odata, idata)]: the result is the final contents of the
    host array [odata]. *)
Definition scan (n : Z) (odata idata : list Z) : option (list Z) :=
  let k := ilog2ceil n in
  let N := pow2 k in
  let g_idata := cudaMalloc (junk 0%nat) n in
  let g_odata := cudaMalloc (junk 1%nat) n in
  g_idata ← cudaMemcpy g_idata idata n;
  g_odata ← kernelEfficientScan n g_odata g_idata n N;
  cudaMemcpy odata g_odata n.

End Host.


(** ** Compaction *)

(** Lines 89-94 of the fused kernel:
    [if (g_idata[index] == 0) g_bdata[index] = 0; else g_bdata[index] = 1;] *)
Definition mask_thread (g_idata : list Z) (index : Z) (g_bdata : list Z)
  : option (list Z) :=
  v ← load g_idata index;
  if bool_decide (v = 0) then store g_bdata index 0 else store g_bdata index 1.

(** Lines 131-134 of the fused kernel:
    [if (g_bdata[index] == 1) { int idx = g_sdata[index];
                                g_odata[idx] = g_idata[index]; }] *)
Definition scatter_thread (g_idata g_sdata g_bdata : list Z)
    (index : Z) (g_odata : list Z) : option (list Z) :=
  m ← load g_bdata index;
  if bool_decide (m = 1) then
    idx ← load g_sdata index;
    v ← load g_idata index;
    store g_odata idx v
  else Some g_odata.

(** [kernelEfficientCompact<<<1, blockDim>>>(g_odata, g_idata, g_sdata,
    g_bdata, n, N)].  The four arrays are distinct allocations; every phase
    writes one of them.  The result is the final contents of [g_odata],
    [g_sdata] and [g_bdata]. *)
Definition kernelEfficientCompact (blockDim : Z)
    (g_odata g_idata g_sdata g_bdata : list Z) (n N : Z)
  : option (list Z * list Z * list Z) :=
  let ts := threads blockDim in
  g_bdata ← run_threads (mask_thread g_idata) ts g_bdata;
  g_sdata ← run_threads (copy_thread g_bdata) ts g_sdata;
  '(offset, g_sdata) ← upsweep (Z.to_nat N) ts n (Int.div N 2) 2 g_sdata;
  g_sdata ← run_threads (clear_thread n) ts g_sdata;
  g_sdata ← downsweep (Z.to_nat N) ts n N 1 (Int.div offset 2) g_sdata;
  g_odata ← run_threads (scatter_thread g_idata g_sdata g_bdata) ts g_odata;
  Some (g_odata, g_sdata, g_bdata).


(** Modelled from the spec: [Common::kernMapToBoolean] is defined in
    common.cu, which is not among the sources.  Section 4.2: for each of the
    [n] elements, mask[i] = 1 if input[i] ≠ 0 else 0, independently per
    element. *)
Definition mapToBoolean_thread (n : Z) (idata : list Z)
    (index : Z) (bools : list Z) : option (list Z) :=
  if bool_decide (index < n) then
    v ← load idata index;
    store bools index (if bool_decide (v ≠ 0) then 1 else 0)
  else Some bools.

Definition kernMapToBoolean (blockDim : Z) (n : Z) (bools idata : list Z)
  : option (list Z) :=
  run_threads (mapToBoolean_thread n idata) (threads blockDim) bools.

(** Modelled from the spec: [Common::kernScatter] is defined in common.cu,
    which is not among the sources.  Section 4.3: for each i with
    mask[i] = 1, write input[i] to output[scannedMask[i]]. *)
Definition kernScatter_thread (n : Z) (idata bools indices : list Z)
    (index : Z) (odata : list Z) : option (list Z) :=
  if bool_decide (index < n) then
    m ← load bools index;
    if bool_decide (m = 1) then
      dst ← load indices index;
      v ← load idata index;
      store odata dst v
    else Some odata
  else Some odata.

Definition kernScatter (blockDim : Z) (n : Z) (odata idata bools indices : list Z)
  : option (list Z) :=
  run_threads (kernScatter_thread n idata bools indices) (threads blockDim) odata.

(** Lines 198-200 of [compact]: the three kernels launched one after the
    other on the device arrays. *)
Definition compact_kernels (n : Z)
    (g_odata g_idata g_sdata g_bdata : list Z) (N : Z)
  : option (list Z * list Z * list Z) :=
  g_bdata ← kernMapToBoolean n n g_bdata g_idata;
  g_sdata ← kernelEfficientScan n g_sdata g_bdata n N;
  g_odata ← kernScatter n n g_odata g_idata g_bdata g_sdata;
  Some (g_odata, g_sdata, g_bdata).

Section HostCompact.

Variable junk : nat → nat → Z.

(** [compact(n, odata, idata)]: the result is the returned count and the
    final contents of the host array [odata]. *)
Definition compact (n : Z) (odata idata : list Z) : option (Z * list Z) :=
  let k := ilog2ceil n in
  let N := pow2 k in
  let g_idata := cudaMalloc (junk 0%nat) n in
  let g_odata := cudaMalloc (junk 1%nat) n in
  let g_bdata := cudaMalloc (junk 2%nat) n in
  let g_sdata := cudaMalloc (junk 3%nat) n in
  g_idata ← cudaMemcpy g_idata idata n;
  '(g_odata, g_sdata, g_bdata) ←
    compact_kernels n g_odata g_idata g_sdata g_bdata N;
  c1 ← load g_bdata (n - 1);
  c2 ← load g_sdata (n - 1);
  let count := Int.add c1 c2 in
  odata ← cudaMemcpy odata g_odata count;
  Some (count, odata).

End HostCompact.

(** * Vocabulary of the specification and of the proofs *)

(** The value of cell [i], for [i] inside the array. *)
Definition get (g : list Z) (i : Z) : Z := default 0 (g !! Z.to_nat i).

(** The effect of a phase whose threads have the effects [upd index], run in
    the order [ts]. *)
Definition run_pure (upd : Z → list Z → list Z) (ts : list Z) (g : list Z)
  : list Z :=
  foldl (λ g t, upd t g) g ts.

(** At a level of a sweep the threads work on the pairs of cells [(a, b)]
    with [a = n - 1 - index * offset] and [b = a - offset / 2].  [f] gives
    the new contents of [a] and [b] from the old ones. *)
Definition pair_upd (f : Z → Z → Z * Z) (n d offset : Z)
    (index : Z) (g : list Z) : list Z :=
  let a := n - 1 - index * offset in
  let b := a - offset `div` 2 in
  if bool_decide (0 ≤ index < d ∧ 0 ≤ b) then
    <[Z.to_nat a := (f (get g a) (get g b)).1]>
      (<[Z.to_nat b := (f (get g a) (get g b)).2]> g)
  else g.

(** The thread that works on cell [i] at a level. *)
Definition cell_owner (n offset : Z) (i : nat) : Z :=
  (n - 1 - Z.of_nat i) `div` offset.

(** The up-sweep adds the left cell into the right one; the down-sweep also
    moves the right cell to the left one. *)
Definition f_up (va vb : Z) : Z * Z := (Int.add va vb, vb).
Definition f_down (va vb : Z) : Z * Z := (Int.add va vb, va).

(** The effect of a thread in the copy phase and in the clear phase. *)
Definition copy_upd (g_idata : list Z) (index : Z) (g : list Z) : list Z :=
  if bool_decide (0 ≤ index) then <[Z.to_nat index := get g_idata index]> g
  else g.

Definition clear_upd (n : Z) (index : Z) (g : list Z) : list Z :=
  if bool_decide (index = 0) then <[Z.to_nat (n - 1) := 0]> g else g.


Definition Zsum (xs : list Z) : Z := foldr Z.add 0 xs.

(** The sum of the first [i] elements: all of them for [i] beyond the end,
    none for [i ≤ 0]. *)
Definition psum (xs : list Z) (i : Z) : Z := Zsum (take (Z.to_nat i) xs).

(** [p2 e] is 2 to the [e]. *)
Definition p2 (e : nat) : Z := 2 ^ Z.of_nat e.

(** The size of the block summed in the cell at distance [j] from the right
    end after [e] levels of the up-sweep: the largest power of two that
    divides [j], capped at [p2 e]. *)
Fixpoint blk (e : nat) (j : Z) : Z :=
  match e with
  | O => 1
  | S e' => if bool_decide (j `mod` p2 (S e') = 0) then p2 (S e') else blk e' j
  end.

(** Loop invariants of the two sweeps, for the input [xs] of length [n].
    After [e] levels of the up-sweep every cell holds the sum of the block
    of input that ends at it. *)
Definition up_inv (xs : list Z) (n : Z) (e : nat) (g : list Z) : Prop :=
  Z.of_nat (length g) = n ∧
  ∀ i, 0 ≤ i < n →
    get g i = Int.wrap (psum xs (i + 1) - psum xs (i + 1 - blk e (n - 1 - i))).

(** With [e] levels of the down-sweep to go, a cell at a distance from the
    right end that [p2 e] divides holds the sum of everything before its
    block; the other cells still hold their block sum. *)
Definition down_inv (xs : list Z) (n : Z) (e : nat) (g : list Z) : Prop :=
  Z.of_nat (length g) = n ∧
  ∀ i, 0 ≤ i < n →
    get g i =
      if bool_decide ((n - 1 - i) `mod` p2 e = 0)
      then Int.wrap (psum xs (i + 1 - p2 e))
      else Int.wrap (psum xs (i + 1) - psum xs (i + 1 - blk e (n - 1 - i))).

(** The exclusive scan of [xs] in [int] arithmetic. *)
Definition exclusive_scan (xs : list Z) : list Z :=
  (λ i, Int.wrap (psum xs i)) <$> seqZ 0 (Z.of_nat (length xs)).

(** Blocks of at most [2 ^ 29] threads keep every index and loop variable of
    the kernels within the range of [int]. *)
Definition max_block : Z := 2 ^ 29.

(** The elements that compaction keeps, in order. *)
Definition kept (xs : list Z) : list Z := filter (λ x, x ≠ 0) xs.

(** The 0/1 mask of the non-zero elements. *)
Definition mask_of (xs : list Z) : list Z :=
  (λ v, if bool_decide (v ≠ 0) then 1 else 0) <$> xs.

(** Proves that the elements of an explicit list are [int]s. *)
Ltac int_list :=
  repeat (constructor;
          [unfold Int.in_range, Int.min_signed, Int.max_signed; lia|]);
  constructor.

(** * Properties *)

(** ** 32-bit arithmetic *)

Section IntFacts.

Lemma wrap_id z : Int.in_range z → Int.wrap z = z.
Proof.
  unfold Int.in_range, Int.min_signed, Int.max_signed, Int.wrap.
  intros H. rewrite Z.mod_small; lia.
Qed.

Lemma wrap_range z : Int.in_range (Int.wrap z).
Proof.
  unfold Int.in_range, Int.min_signed, Int.max_signed, Int.wrap.
  pose proof (Z.mod_pos_bound (z + 2 ^ 31) (2 ^ 32)). lia.
Qed.

Lemma wrap_shift z q : Int.wrap (z + q * 2 ^ 32) = Int.wrap z.
Proof.
  unfold Int.wrap.
  replace (z + q * 2 ^ 32 + 2 ^ 31) with (z + 2 ^ 31 + q * 2 ^ 32) by lia.
  by rewrite Z_mod_plus_full.
Qed.

Lemma wrap_decompose z : ∃ q, Int.wrap z = z + q * 2 ^ 32.
Proof.
  exists (- ((z + 2 ^ 31) `div` 2 ^ 32)). unfold Int.wrap.
  pose proof (Z.div_mod (z + 2 ^ 31) (2 ^ 32)). lia.
Qed.

Lemma wrap_add_wrap x y : Int.wrap (Int.wrap x + Int.wrap y) = Int.wrap (x + y).
Proof.
  destruct (wrap_decompose x) as [q ->], (wrap_decompose y) as [q' ->].
  replace (x + q * 2 ^ 32 + (y + q' * 2 ^ 32))
    with (x + y + (q + q') * 2 ^ 32) by lia.
  apply wrap_shift.
Qed.

Lemma add_wrap x y : Int.add (Int.wrap x) (Int.wrap y) = Int.wrap (x + y).
Proof. apply wrap_add_wrap. Qed.

Lemma wrap_0 : Int.wrap 0 = 0.
Proof. reflexivity. Qed.

Lemma sub_exact x y : Int.in_range (x - y) → Int.sub x y = x - y.
Proof. apply wrap_id. Qed.

Lemma mul_exact x y : Int.in_range (x * y) → Int.mul x y = x * y.
Proof. apply wrap_id. Qed.

Lemma div_exact x y : 0 ≤ x → 0 < y → Int.in_range x → Int.div x y = x `div` y.
Proof.
  intros Hx Hy Hr. unfold Int.div. rewrite Z.quot_div_nonneg by lia.
  apply wrap_id. unfold Int.in_range, Int.min_signed, Int.max_signed in *.
  pose proof (Z.div_pos x y). pose proof (Z.div_le_upper_bound x y x).
  assert (x `div` y ≤ x) by (apply H0; nia). lia.
Qed.

Lemma shr_1 x : Int.shr x 1 = x `div` 2.
Proof. unfold Int.shr. by rewrite Z.shiftr_div_pow2. Qed.

End IntFacts.

(** ** Arrays: total reads *)

Section ArrayFacts.

Implicit Types (g : list Z) (i j v : Z).

Lemma load_get g i :
  0 ≤ i < Z.of_nat (length g) → load g i = Some (get g i).
Proof.
  intros Hi. unfold load, get. rewrite bool_decide_true by lia.
  destruct (lookup_lt_is_Some_2 g (Z.to_nat i)) as [x ->]; [lia | done].
Qed.

Lemma store_insert g i v :
  0 ≤ i < Z.of_nat (length g) → store g i v = Some (<[Z.to_nat i := v]> g).
Proof. intros Hi. unfold store. by rewrite bool_decide_true. Qed.

Lemma get_insert_eq g i v :
  0 ≤ i < Z.of_nat (length g) → get (<[Z.to_nat i := v]> g) i = v.
Proof.
  intros Hi. unfold get. rewrite list_lookup_insert_eq; [done | lia].
Qed.

Lemma get_insert_ne g i j v :
  0 ≤ i → 0 ≤ j → i ≠ j → get (<[Z.to_nat i := v]> g) j = get g j.
Proof.
  intros Hi Hj Hne. unfold get. rewrite list_lookup_insert_ne; [done | lia].
Qed.

Lemma get_lookup g (i : nat) :
  (i < length g)%nat → g !! i = Some (get g (Z.of_nat i)).
Proof.
  intros Hi. unfold get. rewrite Nat2Z.id.
  destruct (lookup_lt_is_Some_2 g i) as [x ->]; [lia | done].
Qed.

Lemma lookup_get g i :
  0 ≤ i < Z.of_nat (length g) → g !! Z.to_nat i = Some (get g i).
Proof.
  intros Hi. rewrite get_lookup by lia. by rewrite Z2Nat.id by lia.
Qed.

(** Two arrays of the same length with the same cells are equal. *)
Lemma get_ext g g' :
  length g = length g' →
  (∀ i, 0 ≤ i < Z.of_nat (length g) → get g i = get g' i) → g = g'.
Proof.
  intros Hlen Hget. apply list_eq. intros i.
  destruct (decide (i < length g)%nat) as [Hi|Hi].
  - rewrite !get_lookup by lia. f_equal. apply Hget. lia.
  - rewrite !lookup_ge_None_2; [done | lia | lia].
Qed.

End ArrayFacts.

(** ** Phases whose threads work on disjoint cells

    [upd index g] is the effect of thread [index] on the array, and
    [owner i] the one thread that may touch cell [i]: a thread leaves the
    cells of other threads alone, and what it writes depends on its own
    cells only.  After the phase every cell holds what its owner alone would
    have written, whatever the order in which the threads ran. *)

Section Phase.

Variable upd : Z → list Z → list Z.
Variable owner : nat → Z.

Hypothesis upd_length : ∀ t g, length (upd t g) = length g.
Hypothesis upd_frame :
  ∀ t g i, owner i ≠ t → upd t g !! i = g !! i.
Hypothesis upd_local :
  ∀ t g g', length g = length g' →
    (∀ i, owner i = t → g !! i = g' !! i) →
    ∀ i, owner i = t → upd t g !! i = upd t g' !! i.

Lemma run_pure_length ts g : length (run_pure upd ts g) = length g.
Proof using upd_length.
  revert g. induction ts as [|t ts IH]; intros g; simpl; [done|].
  by rewrite IH, upd_length.
Qed.

Lemma run_pure_lookup ts g i :
  NoDup ts →
  run_pure upd ts g !! i =
    if decide (owner i ∈ ts) then upd (owner i) g !! i else g !! i.
Proof using upd_length upd_frame upd_local.
  intros Hnd. revert g. induction Hnd as [|t ts Hnotin Hts IH]; intros g.
  - done.
  - change (run_pure upd (t :: ts) g) with (run_pure upd ts (upd t g)). rewrite IH. destruct (decide (owner i = t)) as [Heq|Hne].
    + rewrite decide_False by (by rewrite Heq).
      rewrite decide_True by (rewrite Heq; left). by rewrite Heq.
    + destruct (decide (owner i ∈ ts)) as [Hin|Hout].
      * rewrite decide_True by (by right).
        apply upd_local; [by rewrite upd_length | | done].
        intros i' Hi'. apply upd_frame. congruence.
      * rewrite decide_False by (rewrite elem_of_cons; tauto).
        by apply upd_frame.
Qed.

(** The order of the threads within a phase is irrelevant. *)
Lemma run_pure_schedule ts ts' g :
  NoDup ts → ts ≡ₚ ts' → run_pure upd ts g = run_pure upd ts' g.
Proof using upd_length upd_frame upd_local.
  intros Hnd Hperm. apply list_eq. intros i.
  rewrite !run_pure_lookup by (by rewrite <-?Hperm).
  destruct (decide (owner i ∈ ts)) as [Hin|Hout].
  - rewrite decide_True; [done | by rewrite <-Hperm].
  - rewrite decide_False; [done | by rewrite <-Hperm].
Qed.

End Phase.

(** A phase none of whose threads faults is the fold of their effects. *)
Lemma run_threads_pure (body : Z → list Z → option (list Z))
    (upd : Z → list Z → list Z) (len : nat) (ts : list Z) (g : list Z) :
  (∀ t g, t ∈ ts → length g = len → body t g = Some (upd t g)) →
  (∀ t g, length (upd t g) = length g) →
  length g = len →
  run_threads body ts g = Some (run_pure upd ts g).
Proof.
  intros Hbody Hlen. revert g.
  induction ts as [|t ts IH]; intros g Hg; simpl; [done|].
  rewrite Hbody by (done || left). simpl.
  apply IH; [|by rewrite Hlen].
  intros t' g' Ht'. apply Hbody. by right.
Qed.

(** ** One level of a sweep *)

Section Level.

Variable f : Z → Z → Z * Z.
Variables n d offset h : Z.

Hypothesis h_pos : 1 ≤ h.
Hypothesis offset_h : offset = 2 * h.

Local Abbreviation upd := (pair_upd f n d offset).
Local Abbreviation owner := (cell_owner n offset).

Lemma half_offset : offset `div` 2 = h.
Proof using offset_h.
  rewrite offset_h, Z.mul_comm. apply Z.div_mul. lia.
Qed.

Lemma owner_a t : (t * offset) `div` offset = t.
Proof using h_pos offset_h. apply Z.div_mul. lia. Qed.

Lemma owner_b t : (t * offset + h) `div` offset = t.
Proof using h_pos offset_h.
  rewrite Z.div_add_l by lia. rewrite Z.div_small by lia. lia.
Qed.

Lemma pair_upd_length t g : length (upd t g) = length g.
Proof.
  unfold pair_upd. case_bool_decide; [|done]. by rewrite !length_insert.
Qed.

Lemma pair_upd_frame t g i : owner i ≠ t → upd t g !! i = g !! i.
Proof using h_pos offset_h.
  intros Hown. unfold pair_upd. rewrite half_offset.
  case_bool_decide as Hc; [|done].
  rewrite !list_lookup_insert_ne; [done| |].
  - intros <-. apply Hown. unfold cell_owner.
    rewrite Z2Nat.id by lia.
    replace (n - 1 - (n - 1 - t * offset - h)) with (t * offset + h) by lia.
    apply owner_b.
  - intros <-. apply Hown. unfold cell_owner.
    rewrite Z2Nat.id by lia.
    replace (n - 1 - (n - 1 - t * offset)) with (t * offset) by lia.
    apply owner_a.
Qed.

Lemma pair_upd_local t g g' :
  length g = length g' →
  (∀ i, owner i = t → g !! i = g' !! i) →
  ∀ i, owner i = t → upd t g !! i = upd t g' !! i.
Proof using h_pos offset_h.
  intros Hlen Hagree i Hi. unfold pair_upd. rewrite half_offset.
  case_bool_decide as Hc; [|by apply Hagree].
  assert (get g (n - 1 - t * offset) = get g' (n - 1 - t * offset)) as ->.
  { unfold get. rewrite Hagree; [done|]. unfold cell_owner.
    rewrite Z2Nat.id by lia.
    replace (n - 1 - (n - 1 - t * offset)) with (t * offset) by lia.
    apply owner_a. }
  assert (get g (n - 1 - t * offset - h) = get g' (n - 1 - t * offset - h))
    as ->.
  { unfold get. rewrite Hagree; [done|]. unfold cell_owner.
    rewrite Z2Nat.id by lia.
    replace (n - 1 - (n - 1 - t * offset - h)) with (t * offset + h) by lia.
    apply owner_b. }
  rewrite !list_lookup_insert, !length_insert, Hlen, (Hagree i Hi). done.
Qed.

(** The contents of every cell after the level. *)
Lemma level_get ts g i :
  NoDup ts → (∀ t, t ∈ ts ↔ 0 ≤ t < n) →
  n ≤ d * offset →
  Z.of_nat (length g) = n → 0 ≤ i < n →
  get (run_pure upd ts g) i =
    let r := (n - 1 - i) `mod` offset in
    if bool_decide (r = 0 ∧ h ≤ i) then (f (get g i) (get g (i - h))).1
    else if bool_decide (r = h) then (f (get g (i + h)) (get g i)).2
    else get g i.
Proof using h_pos offset_h.
  intros Hnd Hts HN Hlen Hi.
  pose proof (Z.div_mod (n - 1 - i) offset ltac:(lia)) as Hdm.
  pose proof (Z.mod_pos_bound (n - 1 - i) offset ltac:(lia)) as Hr.
  pose proof (Z.div_pos (n - 1 - i) offset ltac:(lia) ltac:(lia)) as Hq.
  set (t := (n - 1 - i) `div` offset) in *.
  set (r := (n - 1 - i) `mod` offset) in *.
  assert (0 ≤ t * offset ≤ n - 1 - i) as Hto by nia.
  assert (t < n) as Htn by nia.
  unfold get at 1.
  rewrite (run_pure_lookup upd owner pair_upd_length pair_upd_frame
             pair_upd_local) by done.
  assert (owner (Z.to_nat i) = t) as Hown.
  { unfold cell_owner. by rewrite Z2Nat.id by lia. }
  rewrite Hown, decide_True by (apply Hts; lia).
  cbv zeta. unfold pair_upd. rewrite half_offset.
  replace (n - 1 - t * offset) with (i + r) by lia.
  assert (t < d ↔ t * offset < d * offset) as Htd by nia.
  destruct (decide (r = 0)) as [Hr0|Hr0].
  - rewrite Hr0, Z.add_0_r.
    destruct (decide (h ≤ i)) as [Hhi|Hhi].
    + rewrite (bool_decide_true (0 = 0 ∧ h ≤ i)) by done.
      rewrite bool_decide_true by lia.
      rewrite list_lookup_insert_eq by (rewrite length_insert; lia). done.
    + rewrite (bool_decide_false (0 = 0 ∧ h ≤ i)) by lia.
      rewrite (bool_decide_false (0 = h)) by lia.
      rewrite bool_decide_false by lia. done.
  - rewrite (bool_decide_false (r = 0 ∧ h ≤ i)) by tauto.
    destruct (decide (r = h)) as [Hrh|Hrh].
    + rewrite (bool_decide_true (r = h)) by done. rewrite Hrh.
      replace (i + h - h) with i by lia.
      rewrite bool_decide_true by lia.
      rewrite list_lookup_insert_ne by lia.
      rewrite list_lookup_insert_eq by lia. done.
    + rewrite (bool_decide_false (r = h)) by done.
      case_bool_decide; [|done].
      rewrite !list_lookup_insert_ne by lia. done.
Qed.

End Level.

(** ** The thread bodies, when no index overflows

    A block is small enough for the index arithmetic to be exact when
    [d * offset], which is [N] at every level, is at most [2 ^ 30]. *)

Section Threads.

Variables n d offset h : Z.

Hypothesis h_pos : 1 ≤ h.
Hypothesis offset_h : offset = 2 * h.
Hypothesis n_range : 1 ≤ n ≤ 2 ^ 30.
Hypothesis d_nonneg : 0 ≤ d.
Hypothesis N_range : d * offset ≤ 2 ^ 30.

Lemma sweep_indices_exact t :
  0 ≤ t →
  sweep_indices n d offset t =
    let a := n - 1 - t * offset in
    let b := a - offset `div` 2 in
    if bool_decide (0 ≤ t < d ∧ 0 ≤ b) then Some (a, b) else None.
Proof using h_pos offset_h n_range d_nonneg N_range.
  intros Ht. unfold sweep_indices. cbv zeta.
  rewrite (half_offset offset h offset_h).
  case_bool_decide as Htd; [|by rewrite bool_decide_false by lia].
  assert (0 ≤ t * offset < d * offset) as Hto by nia.
  assert (offset ≤ d * offset) as Hoff by nia.
  rewrite (sub_exact n 1), mul_exact, div_exact, (half_offset offset h offset_h);
    try (unfold Int.in_range, Int.min_signed, Int.max_signed; lia).
  rewrite (sub_exact (n - 1) (t * offset))
    by (unfold Int.in_range, Int.min_signed, Int.max_signed; lia).
  rewrite (sub_exact (n - 1 - t * offset) h)
    by (unfold Int.in_range, Int.min_signed, Int.max_signed; lia).
  destruct (decide (0 ≤ n - 1 - t * offset - h)) as [Hb|Hb].
  - by rewrite !bool_decide_true by lia.
  - rewrite (bool_decide_false (0 ≤ n - 1 - t * offset - h)) by done.
    rewrite andb_false_r. by rewrite bool_decide_false by tauto.
Qed.

Lemma upsweep_thread_pure t g :
  0 ≤ t → Z.of_nat (length g) = n →
  upsweep_thread n d offset t g = Some (pair_upd f_up n d offset t g).
Proof using h_pos offset_h n_range d_nonneg N_range.
  intros Ht Hlen. unfold upsweep_thread, pair_upd.
  rewrite sweep_indices_exact by done. cbv zeta.
  rewrite (half_offset offset h offset_h).
  case_bool_decide as Hc; [|done].
  assert (0 ≤ t * offset) by nia.
  rewrite !load_get by lia. simpl.
  rewrite store_insert by lia. do 2 f_equal.
  symmetry. apply list_insert_id, lookup_get. lia.
Qed.

Lemma downsweep_thread_pure t g :
  0 ≤ t → Z.of_nat (length g) = n →
  downsweep_thread n d offset t g = Some (pair_upd f_down n d offset t g).
Proof using h_pos offset_h n_range d_nonneg N_range.
  intros Ht Hlen. unfold downsweep_thread, pair_upd.
  rewrite sweep_indices_exact by done. cbv zeta.
  rewrite (half_offset offset h offset_h).
  case_bool_decide as Hc; [|done].
  assert (0 ≤ t * offset) by nia.
  rewrite !load_get by lia. simpl.
  rewrite store_insert by lia. simpl.
  rewrite load_get by (rewrite length_insert; lia). simpl.
  rewrite get_insert_ne by lia.
  rewrite store_insert by (rewrite length_insert; lia). done.
Qed.

End Threads.

(** ** Sums and blocks *)

Section SumFacts.

Lemma Zsum_app xs ys : Zsum (xs ++ ys) = Zsum xs + Zsum ys.
Proof. induction xs as [|x xs IH]; simpl; lia. Qed.

Lemma psum_nonpos xs i : i ≤ 0 → psum xs i = 0.
Proof.
  intros Hi. unfold psum. by replace (Z.to_nat i) with 0%nat by lia.
Qed.

Lemma psum_succ xs i :
  0 ≤ i < Z.of_nat (length xs) → psum xs (i + 1) = psum xs i + get xs i.
Proof.
  intros Hi. unfold psum.
  replace (Z.to_nat (i + 1)) with (S (Z.to_nat i)) by lia.
  rewrite (take_S_r xs (Z.to_nat i) (get xs i)) by (by apply lookup_get).
  rewrite Zsum_app. simpl. lia.
Qed.

Lemma psum_all xs i : Z.of_nat (length xs) ≤ i → psum xs i = Zsum xs.
Proof. intros Hi. unfold psum. by rewrite take_ge by lia. Qed.

Lemma p2_0 : p2 0 = 1.
Proof. reflexivity. Qed.

Lemma p2_S e : p2 (S e) = 2 * p2 e.
Proof. unfold p2. rewrite Nat2Z.inj_succ. apply Z.pow_succ_r. lia. Qed.

Lemma p2_pos e : 1 ≤ p2 e.
Proof. unfold p2. pose proof (Z.pow_pos_nonneg 2 (Z.of_nat e)). lia. Qed.

Lemma p2_add e e' : p2 (e + e') = p2 e * p2 e'.
Proof. unfold p2. rewrite Nat2Z.inj_add. apply Z.pow_add_r; lia. Qed.

Lemma p2_le e e' : (e ≤ e')%nat → p2 e ≤ p2 e'.
Proof. intros H. unfold p2. apply Z.pow_le_mono_r; lia. Qed.

(** Remainders modulo [2 * h] and modulo [h]. *)
Lemma mod_double j h :
  0 < h → j `mod` (2 * h) = j `mod` h + h * ((j `div` h) `mod` 2).
Proof. intros Hh. rewrite (Z.mul_comm 2 h). apply Z.rem_mul_r; lia. Qed.

Lemma mod_double_cases j h :
  0 < h →
  (j `mod` (2 * h) = 0 ∨ j `mod` (2 * h) = h) ↔ j `mod` h = 0.
Proof.
  intros Hh. rewrite mod_double by done.
  pose proof (Z.mod_pos_bound j h Hh).
  pose proof (Z.mod_pos_bound (j `div` h) 2 ltac:(lia)).
  assert ((j `div` h) `mod` 2 = 0 ∨ (j `div` h) `mod` 2 = 1) as [-> | ->]
    by lia; lia.
Qed.

Lemma mod_double_add j h :
  0 < h → j `mod` (2 * h) = 0 → (j + h) `mod` (2 * h) = h.
Proof.
  intros Hh Hj.
  pose proof (Z.div_mod j (2 * h) ltac:(lia)) as Hdm. rewrite Hj in Hdm.
  replace (j + h) with (h + j `div` (2 * h) * (2 * h)) by lia.
  rewrite Z_mod_plus_full. apply Z.mod_small. lia.
Qed.

Lemma mod_double_sub j h :
  0 < h → j `mod` (2 * h) = h → (j - h) `mod` (2 * h) = 0.
Proof.
  intros Hh Hj.
  pose proof (Z.div_mod j (2 * h) ltac:(lia)) as Hdm. rewrite Hj in Hdm.
  replace (j - h) with (0 + j `div` (2 * h) * (2 * h)) by lia.
  rewrite Z_mod_plus_full. apply Z.mod_small. lia.
Qed.

Lemma blk_divisible e j : j `mod` p2 e = 0 → blk e j = p2 e.
Proof.
  destruct e as [|e]; [done|]. simpl. intros H.
  by rewrite bool_decide_true.
Qed.

Lemma blk_S_indivisible e j : j `mod` p2 (S e) ≠ 0 → blk (S e) j = blk e j.
Proof. intros H. simpl. by rewrite bool_decide_false. Qed.

End SumFacts.

(** ** Loop invariants of the two sweeps *)

Section Sweep.

(** The input of the scan and its length. *)
Variable xs : list Z.
Variable n : Z.

Variable ts : list Z.
Hypothesis ts_nodup : NoDup ts.
Hypothesis ts_block : ∀ t, t ∈ ts ↔ 0 ≤ t < n.

Lemma up_inv_level e d g :
  n ≤ d * p2 (S e) →
  up_inv xs n e g →
  up_inv xs n (S e) (run_pure (pair_upd f_up n d (p2 (S e))) ts g).
Proof using ts_nodup ts_block.
  intros HN [Hlen Hget]. split.
  { rewrite run_pure_length; [done | apply pair_upd_length]. }
  intros i Hi.
  rewrite (level_get f_up n d (p2 (S e)) (p2 e) (p2_pos e) (p2_S e))
    by done.
  cbv zeta. pose proof (p2_pos e) as Hh. rewrite (p2_S e) in *.
  case_bool_decide as Hc.
  - destruct Hc as [Hr Hhi]. unfold f_up. cbn [fst].
    rewrite (Hget i), (Hget (i - p2 e)) by lia.
    rewrite (blk_divisible e (n - 1 - i))
      by (apply mod_double_cases; [lia | by left]).
    replace (n - 1 - (i - p2 e)) with (n - 1 - i + p2 e) by lia.
    rewrite (blk_divisible e (n - 1 - i + p2 e))
      by (apply mod_double_cases; [lia | right; apply mod_double_add; lia]).
    rewrite add_wrap, blk_divisible by (by rewrite p2_S).
    rewrite p2_S. f_equal.
    replace (i - p2 e + 1) with (i + 1 - p2 e) by lia.
    replace (i + 1 - p2 e - p2 e) with (i + 1 - 2 * p2 e) by lia. lia.
  - assert (get g i = Int.wrap (psum xs (i + 1) -
              psum xs (i + 1 - blk (S e) (n - 1 - i)))) as Hsame.
    { rewrite Hget by done.
      destruct (decide ((n - 1 - i) `mod` (2 * p2 e) = 0)) as [Hr|Hr].
      - rewrite (blk_divisible (S e)) by (by rewrite p2_S).
        rewrite (blk_divisible e)
          by (apply mod_double_cases; [lia | by left]).
        rewrite p2_S, !(psum_nonpos xs (i + 1 - _)) by lia. done.
      - by rewrite blk_S_indivisible by (by rewrite p2_S). }
    unfold f_up. cbn [snd]. by case_bool_decide.
Qed.

Lemma down_inv_level e d g :
  n ≤ d * p2 (S e) →
  down_inv xs n (S e) g →
  down_inv xs n e (run_pure (pair_upd f_down n d (p2 (S e))) ts g).
Proof using ts_nodup ts_block.
  intros HN [Hlen Hget]. split.
  { rewrite run_pure_length; [done | apply pair_upd_length]. }
  intros i Hi.
  rewrite (level_get f_down n d (p2 (S e)) (p2 e) (p2_pos e) (p2_S e))
    by done.
  cbv zeta. pose proof (p2_pos e) as Hh.
  pose proof (mod_double_cases (n - 1 - i) (p2 e) ltac:(lia)) as Hcases.
  case_bool_decide as Hc; [|case_bool_decide as Hc'].
  - destruct Hc as [Hr Hhi]. unfold f_down. cbn [fst].
    rewrite (Hget i), (Hget (i - p2 e)) by lia.
    rewrite (bool_decide_true _ Hr).
    replace (n - 1 - (i - p2 e)) with (n - 1 - i + p2 e) by lia.
    rewrite p2_S in Hr.
    pose proof (mod_double_add (n - 1 - i) (p2 e) ltac:(lia) Hr) as Hr'.
    rewrite bool_decide_false by (rewrite p2_S; lia).
    rewrite blk_S_indivisible by (rewrite p2_S; lia).
    rewrite (blk_divisible e (n - 1 - i + p2 e))
      by (apply mod_double_cases; [lia | by right]).
    rewrite add_wrap, bool_decide_true by tauto.
    rewrite p2_S. f_equal.
    replace (i - p2 e + 1) with (i + 1 - p2 e) by lia.
    replace (i + 1 - p2 e - p2 e) with (i + 1 - 2 * p2 e) by lia. lia.
  - unfold f_down. cbn [snd]. rewrite p2_S in Hc'.
    assert (0 ≤ (n - 1 - i) `div` (2 * p2 e)).
    { apply Z.div_pos; lia. }
    pose proof (Z.div_mod (n - 1 - i) (2 * p2 e) ltac:(lia)) as Hdm.
    rewrite Hc' in Hdm.
    rewrite (Hget (i + p2 e)) by lia.
    replace (n - 1 - (i + p2 e)) with (n - 1 - i - p2 e) by lia.
    rewrite bool_decide_true
      by (rewrite p2_S; apply mod_double_sub; [lia | done]).
    rewrite bool_decide_true by tauto.
    rewrite p2_S. f_equal. f_equal. lia.
  - rewrite p2_S in Hc, Hc'. rewrite Hget by done.
    destruct (decide ((n - 1 - i) `mod` (2 * p2 e) = 0)) as [Hr|Hr].
    + rewrite (bool_decide_true ((n - 1 - i) `mod` p2 (S e) = 0))
        by (by rewrite p2_S).
      rewrite bool_decide_true by tauto.
      rewrite p2_S, !(psum_nonpos xs (i + 1 - _)) by lia. done.
    + rewrite (bool_decide_false ((n - 1 - i) `mod` p2 (S e) = 0))
        by (by rewrite p2_S).
      rewrite bool_decide_false by tauto.
      by rewrite blk_S_indivisible by (by rewrite p2_S).
Qed.

End Sweep.

(** ** The two loops and the kernel *)

Lemma p2_small e : (e ≤ 30)%nat → p2 e ≤ 2 ^ 30.
Proof. intros H. apply (p2_le e 30 H). Qed.

Lemma half_p2_S m : p2 (S m) `div` 2 = p2 m.
Proof. rewrite p2_S, Z.mul_comm. apply Z.div_mul. lia. Qed.

(** A level run by the whole block does not fault. *)
Section LevelRun.

Variable n : Z.
Variable ts : list Z.

Hypothesis n_range : 1 ≤ n ≤ 2 ^ 30.
Hypothesis ts_block : ∀ t, t ∈ ts ↔ 0 ≤ t < n.

Lemma upsweep_level_run e d g :
  0 ≤ d → d * p2 (S e) ≤ 2 ^ 30 → Z.of_nat (length g) = n →
  run_threads (upsweep_thread n d (p2 (S e))) ts g
  = Some (run_pure (pair_upd f_up n d (p2 (S e))) ts g).
Proof using n_range ts_block.
  intros Hd HN Hlen.
  apply (run_threads_pure _ _ (Z.to_nat n)); [|apply pair_upd_length|lia].
  intros t g' Ht Hg'.
  apply (upsweep_thread_pure n d (p2 (S e)) (p2 e));
    auto using p2_pos, p2_S; try lia. by apply ts_block.
Qed.

Lemma downsweep_level_run e d g :
  0 ≤ d → d * p2 (S e) ≤ 2 ^ 30 → Z.of_nat (length g) = n →
  run_threads (downsweep_thread n d (p2 (S e))) ts g
  = Some (run_pure (pair_upd f_down n d (p2 (S e))) ts g).
Proof using n_range ts_block.
  intros Hd HN Hlen.
  apply (run_threads_pure _ _ (Z.to_nat n)); [|apply pair_upd_length|lia].
  intros t g' Ht Hg'.
  apply (downsweep_thread_pure n d (p2 (S e)) (p2 e));
    auto using p2_pos, p2_S; try lia. by apply ts_block.
Qed.

End LevelRun.

Section Kernel.

Variable xs : list Z.
Variable n : Z.
Variable k : nat.
Variable ts : list Z.

Hypothesis n_pos : 1 ≤ n.
Hypothesis n_le_N : n ≤ p2 k.
Hypothesis k_small : (k ≤ 29)%nat.
Hypothesis ts_nodup : NoDup ts.
Hypothesis ts_block : ∀ t, t ∈ ts ↔ 0 ≤ t < n.

(** The up-sweep, with [m] levels to go after [e] levels: it ends with
    [offset = 2 * N] and every block sum in place. *)
Lemma upsweep_spec m : ∀ e fuel g,
  (e + m = k)%nat → (m ≤ fuel)%nat → up_inv xs n e g →
  ∃ g', upsweep fuel ts n (p2 m `div` 2) (p2 (S e)) g = Some (p2 (S k), g')
        ∧ up_inv xs n k g'.
Proof using n_pos n_le_N k_small ts_nodup ts_block.
  induction m as [|m IH]; intros e fuel g Hk Hfuel Hinv.
  - exists g. replace e with k in * by lia. split; [|done].
    rewrite p2_0. change (1 `div` 2) with 0. by destruct fuel.
  - destruct fuel as [|fuel]; [lia|].
    rewrite half_p2_S. cbn [upsweep].
    pose proof (p2_pos m) as Hm. rewrite bool_decide_true by lia.
    assert (p2 m * p2 (S e) = p2 k) as HN.
    { rewrite <-p2_add. f_equal. lia. }
    pose proof (p2_small k ltac:(lia)).
    rewrite (upsweep_level_run n ts) by (done || lia || apply Hinv). cbn [mbind option_bind].
    rewrite shr_1, mul_exact, (Z.mul_comm _ 2), <-p2_S.
    2:{ rewrite (Z.mul_comm _ 2), <-p2_S.
        pose proof (p2_small (S (S e)) ltac:(lia)). pose proof (p2_pos (S (S e))).
        unfold Int.in_range, Int.min_signed, Int.max_signed. lia. }
    apply IH; [lia | lia |].
    apply up_inv_level; [done | done | lia | done].
Qed.

(** The down-sweep with [e] levels to go. *)
Lemma downsweep_spec e : ∀ fuel g,
  (e ≤ k)%nat → (e ≤ fuel)%nat → down_inv xs n e g →
  ∃ g', downsweep fuel ts n (p2 k) (p2 (k - e)) (p2 e) g = Some g'
        ∧ down_inv xs n 0 g'.
Proof using n_pos n_le_N k_small ts_nodup ts_block.
  pose proof (p2_small k ltac:(lia)) as HNs. pose proof (p2_pos k) as HNp.
  assert (Int.div (p2 k) 2 = p2 k `div` 2) as HN2.
  { apply div_exact; unfold Int.in_range, Int.min_signed, Int.max_signed; lia. }
  induction e as [|e IH]; intros fuel g Hk Hfuel Hinv.
  - exists g. split; [|done]. rewrite Nat.sub_0_r.
    assert (p2 k `div` 2 < p2 k) by (apply Z.div_lt; lia).
    destruct fuel; cbn [downsweep]; by rewrite HN2, bool_decide_false by lia.
  - destruct fuel as [|fuel]; [lia|]. cbn [downsweep].
    assert (p2 (k - S e) * p2 (S e) = p2 k) as HN.
    { rewrite <-p2_add. f_equal. lia. }
    pose proof (p2_pos (k - S e)) as Hd. pose proof (p2_pos e) as He.
    assert (p2 (k - S e) ≤ p2 k `div` 2).
    { apply Z.div_le_lower_bound; [lia|]. rewrite p2_S in HN. nia. }
    rewrite HN2, bool_decide_true by done.
    rewrite (downsweep_level_run n ts) by (done || lia || apply Hinv). cbn [mbind option_bind].
    assert (Int.mul (p2 (k - S e)) 2 = p2 (k - e)) as ->.
    { replace (k - e)%nat with (S (k - S e)) by lia.
      rewrite p2_S, Z.mul_comm. apply mul_exact.
      pose proof (p2_le (S (k - S e)) k ltac:(lia)) as Hle.
      rewrite p2_S in Hle.
      unfold Int.in_range, Int.min_signed, Int.max_signed. lia. }
    assert (Int.div (p2 (S e)) 2 = p2 e) as ->.
    { rewrite div_exact, half_p2_S; [done| | lia |].
      - pose proof (p2_pos (S e)). lia.
      - pose proof (p2_le (S e) k ltac:(lia)). pose proof (p2_pos (S e)).
        unfold Int.in_range, Int.min_signed, Int.max_signed. lia. }
    apply IH; [lia | lia |].
    apply down_inv_level; [done | done | lia | done].
Qed.

Hypothesis xs_len : Z.of_nat (length xs) = n.
Hypothesis xs_int : Forall Int.in_range xs.

Lemma get_int i : 0 ≤ i < n → Int.in_range (get xs i).
Proof using xs_len xs_int.
  intros Hi. eapply Forall_lookup_1; [exact xs_int|].
  apply lookup_get. by rewrite xs_len.
Qed.

Lemma copy_run g :
  Z.of_nat (length g) = n →
  run_threads (copy_thread xs) ts g = Some xs.
Proof using All.
  intros Hlen.
  rewrite (run_threads_pure _ (copy_upd xs) (Z.to_nat n)); [|  |  | lia].
  - f_equal. apply list_eq. intros i.
    rewrite (run_pure_lookup (copy_upd xs) Z.of_nat); [| | | |done].
    + destruct (decide (Z.of_nat i ∈ ts)) as [Hin|Hout].
      * apply ts_block in Hin. unfold copy_upd.
        rewrite bool_decide_true, Nat2Z.id by lia.
        rewrite list_lookup_insert_eq by lia.
        symmetry. apply get_lookup. lia.
      * rewrite ts_block in Hout.
        rewrite !lookup_ge_None_2; [done | lia | lia].
    + intros t g'. unfold copy_upd. case_bool_decide; [|done].
      apply length_insert.
    + intros t g' i' Hne. unfold copy_upd. case_bool_decide; [|done].
      apply list_lookup_insert_ne. lia.
    + intros t g1 g2 Hl Hagree i' Hi'. unfold copy_upd.
      case_bool_decide; [|by apply Hagree].
      by rewrite !list_lookup_insert, Hl, (Hagree i' Hi').
  - intros t g' Ht Hg'. apply ts_block in Ht. unfold copy_thread, copy_upd.
    rewrite load_get by lia. cbn [mbind option_bind].
    rewrite store_insert by lia. by rewrite bool_decide_true by lia.
  - intros t g'. unfold copy_upd. case_bool_decide; [|done].
    apply length_insert.
Qed.

Lemma clear_run g :
  Z.of_nat (length g) = n →
  run_threads (clear_thread n) ts g = Some (<[Z.to_nat (n - 1) := 0]> g).
Proof using All.
  intros Hlen. pose proof (p2_small k ltac:(lia)).
  rewrite (run_threads_pure _ (clear_upd n) (Z.to_nat n)); [|  |  | lia].
  - f_equal. apply list_eq. intros i.
    rewrite (run_pure_lookup (clear_upd n) (λ _, 0)); [| | | |done].
    + rewrite decide_True by (apply ts_block; lia). done.
    + intros t g'. unfold clear_upd. case_bool_decide; [|done].
      apply length_insert.
    + intros t g' i' Hne. unfold clear_upd. by rewrite bool_decide_false.
    + intros t g1 g2 Hl Hagree i' Hi'. unfold clear_upd.
      case_bool_decide; [|by apply Hagree].
      by rewrite !list_lookup_insert, Hl, (Hagree i' Hi').
  - intros t g' Ht Hg'. unfold clear_thread, clear_upd.
    rewrite (bool_decide_true (0 < n)), andb_true_r by lia.
    case_bool_decide; [|done].
    rewrite sub_exact
      by (unfold Int.in_range, Int.min_signed, Int.max_signed; lia).
    by rewrite store_insert by lia.
  - intros t g'. unfold clear_upd. case_bool_decide; [|done].
    apply length_insert.
Qed.

Lemma up_inv_init : up_inv xs n 0 xs.
Proof using All.
  split; [done|]. intros i Hi. cbn [blk].
  replace (i + 1 - 1) with i by lia.
  rewrite psum_succ by (by rewrite xs_len).
  replace (psum xs i + get xs i - psum xs i) with (get xs i) by lia.
  symmetry. by apply wrap_id, get_int.
Qed.

(** Clearing the last cell turns the result of the up-sweep into the
    start of the down-sweep. *)
Lemma down_inv_init g :
  up_inv xs n k g → down_inv xs n k (<[Z.to_nat (n - 1) := 0]> g).
Proof using All.
  intros [Hlen Hget]. split; [by rewrite length_insert|].
  intros i Hi. destruct (decide (i = n - 1)) as [->|Hne].
  - rewrite get_insert_eq by lia.
    replace (n - 1 - (n - 1)) with 0 by lia.
    rewrite Z.mod_0_l by (pose proof (p2_pos k); lia).
    rewrite bool_decide_true by done.
    rewrite psum_nonpos by lia. done.
  - rewrite get_insert_ne by lia.
    rewrite bool_decide_false by (rewrite Z.mod_small; lia).
    by apply Hget.
Qed.

(** The kernel computes the exclusive scan of [g_idata] in [int]
    arithmetic, whatever [g_odata] held before. *)
Lemma kernelEfficientScan_on_spec g_odata :
  Z.of_nat (length g_odata) = n →
  ∃ out, kernelEfficientScan_on ts g_odata xs n (p2 k) = Some out
         ∧ Z.of_nat (length out) = n
         ∧ ∀ i, 0 ≤ i < n → get out i = Int.wrap (psum xs i).
Proof using All.
  intros Hlen. unfold kernelEfficientScan_on.
  rewrite copy_run by done. cbn [mbind option_bind].
  pose proof (p2_small k ltac:(lia)) as HNs. pose proof (p2_pos k) as HNp.
  assert (k ≤ Z.to_nat (p2 k))%nat as Hfuel.
  { pose proof (Z.pow_gt_lin_r 2 (Z.of_nat k) ltac:(lia) ltac:(lia)).
    unfold p2. lia. }
  rewrite div_exact
    by (unfold Int.in_range, Int.min_signed, Int.max_signed; lia).
  destruct (upsweep_spec k 0 (Z.to_nat (p2 k)) xs
              ltac:(lia) Hfuel up_inv_init) as (g1 & Hrun1 & Hup).
  change (p2 1) with 2 in Hrun1. rewrite Hrun1. cbn [mbind option_bind].
  rewrite clear_run by apply Hup. cbn [mbind option_bind].
  rewrite div_exact, half_p2_S.
  2:{ pose proof (p2_pos (S k)). lia. }
  2:{ lia. }
  2:{ pose proof (p2_small (S k) ltac:(lia)). pose proof (p2_pos (S k)).
      unfold Int.in_range, Int.min_signed, Int.max_signed. lia. }
  destruct (downsweep_spec k (Z.to_nat (p2 k)) (<[Z.to_nat (n - 1) := 0]> g1)
              ltac:(lia) Hfuel (down_inv_init g1 Hup)) as (g2 & Hrun & Hdown).
  rewrite Nat.sub_diag in Hrun. exists g2. split; [exact Hrun|].
  destruct Hdown as [Hlen2 Hget]. split; [done|].
  intros i Hi. rewrite Hget by done.
  rewrite p2_0, Z.mod_1_r, bool_decide_true by done.
  by replace (i + 1 - 1) with i by lia.
Qed.

End Kernel.

(** ** The host functions *)

Section ScanFacts.

Lemma length_exclusive_scan xs : length (exclusive_scan xs) = length xs.
Proof.
  unfold exclusive_scan. by rewrite length_fmap, length_seqZ, Nat2Z.id.
Qed.

Lemma get_exclusive_scan xs i :
  0 ≤ i < Z.of_nat (length xs) →
  get (exclusive_scan xs) i = Int.wrap (psum xs i).
Proof.
  intros Hi. unfold get, exclusive_scan.
  rewrite list_lookup_fmap, lookup_seqZ_lt by lia. simpl.
  by rewrite Z2Nat.id by lia.
Qed.

Lemma threads_nodup n : NoDup (threads n).
Proof. apply NoDup_seqZ. Qed.

Lemma threads_block n t : t ∈ threads n ↔ 0 ≤ t < n.
Proof. unfold threads. rewrite elem_of_seqZ. lia. Qed.

(** The padded size computed by the host. *)
Lemma padded_size n :
  1 ≤ n ≤ max_block →
  ∃ k : nat, pow2 (ilog2ceil n) = p2 k ∧ n ≤ p2 k ∧ (k ≤ 29)%nat.
Proof.
  unfold max_block. intros Hn. unfold pow2, ilog2ceil.
  pose proof (Z.log2_up_nonneg n) as Hk0.
  assert (n ≤ 2 ^ Z.log2_up n) as Hle.
  { destruct (decide (n = 1)) as [->|]; [done|].
    apply Z.log2_up_spec. lia. }
  assert (Z.log2_up n ≤ 29) as Hk.
  { apply Z.log2_up_le_pow2; lia. }
  exists (Z.to_nat (Z.log2_up n)). unfold p2. rewrite Z2Nat.id by done.
  split; [|split; [done | lia]].
  apply wrap_id. unfold Int.in_range, Int.min_signed, Int.max_signed.
  pose proof (Z.pow_le_mono_r 2 (Z.log2_up n) 29 ltac:(lia) Hk).
  pose proof (Z.pow_pos_nonneg 2 (Z.log2_up n) ltac:(lia) Hk0). lia.
Qed.

Lemma kernelEfficientScan_spec n g_odata g_idata :
  0 ≤ n ≤ max_block →
  Z.of_nat (length g_idata) = n → Z.of_nat (length g_odata) = n →
  Forall Int.in_range g_idata →
  kernelEfficientScan n g_odata g_idata n (pow2 (ilog2ceil n))
  = Some (exclusive_scan g_idata).
Proof.
  intros Hn Hi Ho Hint. destruct (decide (n = 0)) as [->|Hn0].
  - destruct g_idata; [|done]. destruct g_odata; [|done]. reflexivity.
  - destruct (padded_size n ltac:(lia)) as (k & -> & HN & Hk).
    destruct (kernelEfficientScan_on_spec g_idata n k (threads n)
                ltac:(lia) HN Hk (threads_nodup n) (threads_block n)
                Hi Hint g_odata Ho) as (out & Hrun & Hlen & Hget).
    unfold kernelEfficientScan. rewrite Hrun. f_equal.
    apply get_ext; [rewrite length_exclusive_scan; lia|].
    intros i Hi'. rewrite get_exclusive_scan by lia. apply Hget. lia.
Qed.

Lemma cudaMalloc_length junk n : 0 ≤ n → Z.of_nat (length (cudaMalloc junk n)) = n.
Proof. intros Hn. unfold cudaMalloc. rewrite length_fmap, length_seq. lia. Qed.

(** A copy of [n] cells between arrays of [n] cells replaces the
    destination. *)
Lemma cudaMemcpy_all dst src n :
  Z.of_nat (length src) = n → Z.of_nat (length dst) = n →
  cudaMemcpy dst src n = Some src.
Proof.
  intros Hs Hd. unfold cudaMemcpy. rewrite bool_decide_true by lia.
  rewrite take_ge, drop_ge by lia. by rewrite app_nil_r.
Qed.

Lemma scan_spec junk n odata idata :
  0 ≤ n ≤ max_block →
  Z.of_nat (length idata) = n → Z.of_nat (length odata) = n →
  Forall Int.in_range idata →
  scan junk n odata idata = Some (exclusive_scan idata).
Proof.
  intros Hn Hi Ho Hint. unfold scan. cbv zeta.
  rewrite cudaMemcpy_all by (done || (apply cudaMalloc_length; lia)).
  cbn [mbind option_bind].
  rewrite kernelEfficientScan_spec
    by (done || (apply cudaMalloc_length; lia)). cbn [mbind option_bind].
  apply cudaMemcpy_all; [|done].
  by rewrite length_exclusive_scan.
Qed.

End ScanFacts.

(** ** Compaction: the mask, its scan and the scatter *)

Section CompactFacts.

Implicit Types (xs g : list Z) (m : nat).

Lemma run_threads_app {S : Type} (body : Z → S → option S) l1 l2 (s : S) :
  run_threads body (l1 ++ l2) s = run_threads body l1 s ≫= run_threads body l2.
Proof.
  revert s. induction l1 as [|t l1 IH]; intros s; simpl; [done|].
  destruct (body t s); simpl; [apply IH | done].
Qed.

Lemma run_threads_ext {S : Type} (body body' : Z → S → option S) ts (s : S) :
  (∀ t s, t ∈ ts → body t s = body' t s) →
  run_threads body ts s = run_threads body' ts s.
Proof.
  revert s. induction ts as [|t ts IH]; intros s Hext; simpl; [done|].
  rewrite Hext by left. destruct (body' t s); simpl; [|done].
  apply IH. intros t' s' Ht'. apply Hext. by right.
Qed.

Lemma kept_snoc xs x :
  kept (xs ++ [x]) = if bool_decide (x ≠ 0) then kept xs ++ [x] else kept xs.
Proof.
  unfold kept. rewrite filter_app. case_bool_decide.
  - rewrite filter_cons_True by done. by rewrite filter_nil.
  - rewrite filter_cons_False by (intros Hx; by apply Hx).
    by rewrite filter_nil, app_nil_r.
Qed.

Lemma length_kept_le xs : (length (kept xs) ≤ length xs)%nat.
Proof. apply length_filter. Qed.

Lemma length_mask_of xs : length (mask_of xs) = length xs.
Proof. apply length_fmap. Qed.

Lemma get_mask_of xs i :
  0 ≤ i < Z.of_nat (length xs) →
  get (mask_of xs) i = if bool_decide (get xs i ≠ 0) then 1 else 0.
Proof.
  intros Hi. unfold get, mask_of. rewrite list_lookup_fmap.
  by rewrite (lookup_get xs i Hi).
Qed.

Lemma mask_of_int xs : Forall Int.in_range (mask_of xs).
Proof.
  apply Forall_fmap, Forall_forall. intros x _. simpl.
  unfold Int.in_range, Int.min_signed, Int.max_signed.
  case_bool_decide; lia.
Qed.

(** The sum of a mask counts the kept elements. *)
Lemma Zsum_mask_of xs : Zsum (mask_of xs) = Z.of_nat (length (kept xs)).
Proof.
  induction xs as [|x xs IH]; [done|].
  unfold kept in *. cbn [mask_of fmap list_fmap Zsum foldr].
  fold (mask_of xs). fold (Zsum (mask_of xs)). rewrite IH.
  rewrite filter_cons. case_bool_decide.
  - rewrite decide_True by done. simpl. lia.
  - rewrite decide_False by lia. lia.
Qed.

Lemma psum_mask_of xs i :
  psum (mask_of xs) i = Z.of_nat (length (kept (take (Z.to_nat i) xs))).
Proof.
  unfold psum, mask_of. rewrite <-fmap_take. apply Zsum_mask_of.
Qed.

(** The scanned mask gives every element the number of kept elements
    before it. *)
Lemma get_scan_mask xs i :
  0 ≤ i < Z.of_nat (length xs) → Z.of_nat (length xs) ≤ max_block →
  get (exclusive_scan (mask_of xs)) i
  = Z.of_nat (length (kept (take (Z.to_nat i) xs))).
Proof.
  intros Hi Hn. rewrite get_exclusive_scan by (by rewrite length_mask_of).
  rewrite psum_mask_of. apply wrap_id.
  pose proof (length_kept_le (take (Z.to_nat i) xs)) as Hle.
  rewrite length_take in Hle.
  unfold max_block, Int.in_range, Int.min_signed, Int.max_signed in *. lia.
Qed.

(** [kernMapToBoolean] after the threads [0 .. m-1]. *)
Lemma mapToBoolean_prefix n xs g m :
  Z.of_nat (length xs) = n → Z.of_nat (length g) = n → Z.of_nat m ≤ n →
  run_threads (mapToBoolean_thread n xs) (seqZ 0 (Z.of_nat m)) g
  = Some (mask_of (take m xs) ++ drop m g).
Proof.
  intros Hxs Hg. induction m as [|m IH]; intros Hm.
  { by rewrite take_0, drop_0. }
  rewrite seqZ_S, run_threads_app, IH by lia. cbn [mbind option_bind].
  rewrite Z.add_0_l. cbn [run_threads]. unfold mapToBoolean_thread.
  rewrite bool_decide_true, load_get by lia. cbn [mbind option_bind].
  rewrite store_insert.
  2:{ rewrite length_app, length_mask_of, length_take, length_drop. lia. }
  cbn [mbind option_bind]. f_equal.
  rewrite (take_S_r xs m (get xs (Z.of_nat m)))
    by (rewrite <-(Nat2Z.id m) at 1; apply lookup_get; lia).
  destruct (lookup_lt_is_Some_2 g m ltac:(lia)) as [y Hy].
  rewrite (drop_S g y m Hy).
  replace (Z.to_nat (Z.of_nat m))
    with (length (mask_of (take m xs)) + 0)%nat
    by (rewrite length_mask_of, length_take; lia).
  rewrite insert_app_r. unfold mask_of at 2. rewrite fmap_app.
  by rewrite <-app_assoc.
Qed.

Lemma kernMapToBoolean_spec n bools idata :
  0 ≤ n → Z.of_nat (length idata) = n → Z.of_nat (length bools) = n →
  kernMapToBoolean n n bools idata = Some (mask_of idata).
Proof.
  intros Hn Hi Hb. unfold kernMapToBoolean, threads.
  rewrite <-(Z2Nat.id n) at 2 by done.
  rewrite (mapToBoolean_prefix n) by (done || lia).
  by rewrite take_ge, drop_ge, app_nil_r by lia.
Qed.

(** [kernScatter] after the threads [0 .. m-1]: the kept elements among
    the first [m] are in place, the rest of the array is untouched. *)
Lemma kernScatter_prefix n xs g m :
  Z.of_nat (length xs) = n → Z.of_nat (length g) = n → n ≤ max_block →
  Z.of_nat m ≤ n →
  run_threads
    (kernScatter_thread n xs (mask_of xs) (exclusive_scan (mask_of xs)))
    (seqZ 0 (Z.of_nat m)) g
  = Some (kept (take m xs) ++ drop (length (kept (take m xs))) g).
Proof.
  intros Hxs Hg Hn. induction m as [|m IH]; intros Hm.
  { by rewrite take_0, drop_0. }
  rewrite seqZ_S, run_threads_app, IH by lia. cbn [mbind option_bind].
  rewrite Z.add_0_l. cbn [run_threads]. unfold kernScatter_thread.
  rewrite bool_decide_true by lia.
  rewrite (load_get (mask_of xs)) by (rewrite length_mask_of; lia).
  cbn [mbind option_bind]. rewrite get_mask_of by lia.
  rewrite (take_S_r xs m (get xs (Z.of_nat m)))
    by (rewrite <-(Nat2Z.id m) at 1; apply lookup_get; lia).
  rewrite kept_snoc.
  destruct (decide (get xs (Z.of_nat m) ≠ 0)) as [Hnz|Hz].
  - rewrite !(bool_decide_true (get xs (Z.of_nat m) ≠ 0)) by done.
    rewrite bool_decide_true by done.
    rewrite (load_get (exclusive_scan _))
      by (rewrite length_exclusive_scan, length_mask_of; lia).
    cbn [mbind option_bind]. rewrite (load_get xs) by lia.
    cbn [mbind option_bind]. rewrite get_scan_mask by lia.
    rewrite Nat2Z.id.
    pose proof (length_kept_le (take m xs)) as Hle.
    rewrite length_take in Hle.
    set (F := kept (take m xs)) in *.
    rewrite store_insert.
    2:{ rewrite length_app, length_drop. lia. }
    cbn [mbind option_bind]. f_equal.
    destruct (lookup_lt_is_Some_2 g (length F) ltac:(lia)) as [y Hy].
    rewrite (drop_S g y _ Hy), Nat2Z.id.
    rewrite <-(Nat.add_0_r (length F)) at 1.
    rewrite insert_app_r, length_app. cbn [length].
    rewrite <-app_assoc. simpl. do 3 f_equal. lia.
  - rewrite !(bool_decide_false (get xs (Z.of_nat m) ≠ 0)) by done.
    by rewrite bool_decide_false by done.
Qed.

Lemma kernScatter_spec n odata idata :
  0 ≤ n ≤ max_block →
  Z.of_nat (length idata) = n → Z.of_nat (length odata) = n →
  kernScatter n n odata idata (mask_of idata) (exclusive_scan (mask_of idata))
  = Some (kept idata ++ drop (length (kept idata)) odata).
Proof.
  intros Hn Hi Ho. unfold kernScatter, threads.
  rewrite <-(Z2Nat.id n) at 2 by lia.
  rewrite (kernScatter_prefix n) by (done || lia).
  by rewrite take_ge by lia.
Qed.

End CompactFacts.

Section CompactHost.

Implicit Types (xs g : list Z).

Lemma kept_all xs : Forall (λ x, x ≠ 0) xs → kept xs = xs.
Proof.
  unfold kept. induction 1 as [|x xs Hx _ IH]; [done|].
  by rewrite filter_cons_True, IH by done.
Qed.

Lemma kept_zeros m : kept (replicate m 0) = [].
Proof.
  unfold kept. induction m as [|m IH]; [done|]. cbn [replicate].
  by rewrite filter_cons_False by (intros Hx; by apply Hx).
Qed.

Lemma kept_take_drop xs m : kept xs = kept (take m xs) ++ kept (drop m xs).
Proof. unfold kept. by rewrite <-filter_app, take_drop. Qed.

(** The number of kept elements before a position grows with it. *)
Lemma kept_take_mono xs m m' :
  (m ≤ m')%nat →
  (length (kept (take m xs)) ≤ length (kept (take m' xs)))%nat.
Proof.
  intros Hm. rewrite (kept_take_drop (take m' xs) m).
  rewrite take_take, Nat.min_l, length_app by done. lia.
Qed.

Lemma kept_take_S xs m :
  (m < length xs)%nat → get xs (Z.of_nat m) ≠ 0 →
  length (kept (take (S m) xs)) = S (length (kept (take m xs))).
Proof.
  intros Hm Hx. rewrite (take_S_r xs m (get xs (Z.of_nat m)))
    by (by apply get_lookup).
  rewrite kept_snoc, bool_decide_true, length_app by done. simpl. lia.
Qed.

(** A kept element sits in [kept xs] at the position that counts the kept
    elements before it. *)
Lemma kept_lookup xs m :
  (m < length xs)%nat → get xs (Z.of_nat m) ≠ 0 →
  kept xs !! length (kept (take m xs)) = Some (get xs (Z.of_nat m)).
Proof.
  intros Hm Hx. rewrite (kept_take_drop xs m).
  rewrite lookup_app_r, Nat.sub_diag by done.
  rewrite (drop_S xs (get xs (Z.of_nat m)) m) by (by apply get_lookup).
  unfold kept. by rewrite filter_cons_True by done.
Qed.

(** [count = c1 + c2] is the number of kept elements. *)
Lemma count_last xs n :
  Z.of_nat (length xs) = n → 1 ≤ n ≤ max_block →
  Int.add (get (mask_of xs) (n - 1)) (get (exclusive_scan (mask_of xs)) (n - 1))
  = Z.of_nat (length (kept xs)).
Proof.
  intros Hlen Hn.
  rewrite get_mask_of, get_scan_mask by lia.
  assert (kept xs = kept (take (Z.to_nat (n - 1)) xs ++ [get xs (n - 1)]))
    as ->.
  { rewrite <-take_S_r by (apply lookup_get; lia).
    by rewrite take_ge by lia. }
  rewrite kept_snoc.
  pose proof (length_kept_le (take (Z.to_nat (n - 1)) xs)) as Hle.
  rewrite length_take in Hle.
  unfold Int.add. rewrite wrap_id.
  - case_bool_decide; [rewrite length_app; simpl|]; lia.
  - unfold max_block, Int.in_range, Int.min_signed, Int.max_signed in *.
    case_bool_decide; lia.
Qed.

Lemma compact_kernels_spec n g_odata g_idata g_sdata g_bdata :
  0 ≤ n ≤ max_block →
  Z.of_nat (length g_idata) = n → Z.of_nat (length g_odata) = n →
  Z.of_nat (length g_sdata) = n → Z.of_nat (length g_bdata) = n →
  compact_kernels n g_odata g_idata g_sdata g_bdata (pow2 (ilog2ceil n))
  = Some (kept g_idata ++ drop (length (kept g_idata)) g_odata,
          exclusive_scan (mask_of g_idata), mask_of g_idata).
Proof.
  intros Hn Hi Ho Hs Hb. unfold compact_kernels.
  rewrite kernMapToBoolean_spec by (done || lia). cbn [mbind option_bind].
  rewrite kernelEfficientScan_spec
    by (done || apply mask_of_int || by rewrite length_mask_of).
  cbn [mbind option_bind].
  by rewrite kernScatter_spec by done.
Qed.

Lemma compact_spec junk n odata idata :
  1 ≤ n ≤ max_block →
  Z.of_nat (length idata) = n → Z.of_nat (length odata) = n →
  compact junk n odata idata
  = Some (Z.of_nat (length (kept idata)),
          kept idata ++ drop (length (kept idata)) odata).
Proof.
  intros Hn Hi Ho. unfold compact. cbv zeta.
  rewrite cudaMemcpy_all by (done || (apply cudaMalloc_length; lia)).
  cbn [mbind option_bind].
  rewrite compact_kernels_spec
    by (done || lia || (apply cudaMalloc_length; lia)).
  cbn [mbind option_bind].
  rewrite (load_get (mask_of idata)) by (rewrite length_mask_of; lia).
  cbn [mbind option_bind].
  rewrite (load_get (exclusive_scan _))
    by (rewrite length_exclusive_scan, length_mask_of; lia).
  cbn [mbind option_bind].
  rewrite (count_last idata n) by done.
  pose proof (length_kept_le idata) as Hle.
  unfold cudaMemcpy. rewrite bool_decide_true.
  2:{ pose proof (cudaMalloc_length (junk 1%nat) n ltac:(lia)).
      rewrite length_app, length_drop. lia. }
  cbn [mbind option_bind]. rewrite Nat2Z.id.
  by rewrite take_app_length.
Qed.

(** The fused kernel runs the same phases as the three kernels. *)
Lemma fused_phases n N g_odata g_idata g_sdata g_bdata :
  kernelEfficientCompact n g_odata g_idata g_sdata g_bdata n N
  = compact_kernels n g_odata g_idata g_sdata g_bdata N.
Proof.
  unfold kernelEfficientCompact, compact_kernels, kernMapToBoolean,
    kernelEfficientScan, kernelEfficientScan_on, kernScatter. cbv zeta.
  rewrite (run_threads_ext (mask_thread g_idata)
             (mapToBoolean_thread n g_idata)).
  2:{ intros t s Ht. apply threads_block in Ht.
      unfold mask_thread, mapToBoolean_thread.
      rewrite bool_decide_true by lia.
      destruct (load g_idata t) as [v|]; [|done]. cbn [mbind option_bind].
      destruct (decide (v = 0)) as [->|Hv]; [done|].
      by rewrite bool_decide_false, bool_decide_true by done. }
  destruct (run_threads (mapToBoolean_thread n g_idata) (threads n) g_bdata)
    as [b|]; [|done]. cbn [mbind option_bind].
  destruct (run_threads (copy_thread b) (threads n) g_sdata)
    as [s1|]; [|done]. cbn [mbind option_bind].
  destruct (upsweep (Z.to_nat N) (threads n) n (Int.div N 2) 2 s1)
    as [[offset s2]|]; [|done]. cbn [mbind option_bind].
  destruct (run_threads (clear_thread n) (threads n) s2)
    as [s3|]; [|done]. cbn [mbind option_bind].
  destruct (downsweep (Z.to_nat N) (threads n) n N 1 (Int.div offset 2) s3)
    as [s4|]; [|done]. cbn [mbind option_bind].
  rewrite (run_threads_ext (scatter_thread g_idata s4 b)
             (kernScatter_thread n g_idata b s4)); [done|].
  intros t s Ht. apply threads_block in Ht.
  unfold scatter_thread, kernScatter_thread.
  by rewrite bool_decide_true by lia.
Qed.

End CompactHost.

(** ** Schedules *)



(** The mask scanned is strictly increasing over the kept elements, so the
    destinations of the scatter are distinct. *)
Lemma scan_mask_lt xs i j :
  Z.of_nat (length xs) ≤ max_block →
  0 ≤ i < j → j < Z.of_nat (length xs) → get (mask_of xs) i = 1 →
  get (exclusive_scan (mask_of xs)) i < get (exclusive_scan (mask_of xs)) j.
Proof.
  intros Hn Hij Hj Hm. rewrite !get_scan_mask by lia.
  rewrite get_mask_of in Hm by lia.
  pose proof (kept_take_S xs (Z.to_nat i) ltac:(lia)) as HS.
  rewrite Z2Nat.id in HS by lia.
  pose proof (kept_take_mono xs (S (Z.to_nat i)) (Z.to_nat j) ltac:(lia)).
  case_bool_decide; [|done]. specialize (HS ltac:(done)). lia.
Qed.



(** ** The block size *)

Lemma ceiling_fits : maxThreadsPerBlock ≤ max_block.
Proof. unfold maxThreadsPerBlock, max_block. lia. Qed.

(** * The claims of the specification *)

(** C1 (as amended).  For every n with 0 ≤ n not exceeding the single-group
    thread ceiling and every sequence of n [int]s, [scan] returns a sequence
    of length n whose element 0 is 0 and whose element i is the sum of
    input[0..i) reduced to the range of [int] (modulo 2^32); it is the exact
    sum whenever that sum is itself in the range of [int]. *)
Theorem scan_exclusive_prefix_sums junk n odata idata :
  0 ≤ n ≤ maxThreadsPerBlock →
  Z.of_nat (length idata) = n → Z.of_nat (length odata) = n →
  Forall Int.in_range idata →
  ∃ out, scan junk n odata idata = Some out
    ∧ Z.of_nat (length out) = n
    ∧ (0 < n → out !! 0%nat = Some 0)
    ∧ (∀ i : nat, Z.of_nat i < n →
         out !! i = Some (Int.wrap (Zsum (take i idata))))
    ∧ (∀ i : nat, Z.of_nat i < n → Int.in_range (Zsum (take i idata)) →
         out !! i = Some (Zsum (take i idata))).
Proof.
  intros Hn Hi Ho Hint. pose proof ceiling_fits as Hc.
  exists (exclusive_scan idata).
  rewrite scan_spec by (done || lia).
  assert (∀ i : nat, Z.of_nat i < n →
            exclusive_scan idata !! i = Some (Int.wrap (Zsum (take i idata))))
    as Hget.
  { intros i Hlt.
    rewrite get_lookup by (rewrite length_exclusive_scan; lia).
    rewrite get_exclusive_scan by lia. unfold psum. by rewrite Nat2Z.id. }
  split; [done|]. split; [rewrite length_exclusive_scan; lia|].
  split; [|split].
  - intros Hpos. by rewrite Hget by lia.
  - exact Hget.
  - intros i Hlt Hr. by rewrite Hget, wrap_id by done.
Qed.

Lemma scan_exclusive_prefix_sums_witness :
  ∃ out, scan (λ _ _, 0) 3 [0; 0; 0] [5; -2; 7] = Some out
    ∧ Z.of_nat (length out) = 3
    ∧ (0 < 3 → out !! 0%nat = Some 0)
    ∧ (∀ i : nat, Z.of_nat i < 3 →
         out !! i = Some (Int.wrap (Zsum (take i [5; -2; 7]))))
    ∧ (∀ i : nat, Z.of_nat i < 3 →
         Int.in_range (Zsum (take i [5; -2; 7])) →
         out !! i = Some (Zsum (take i [5; -2; 7]))).
Proof.
  apply (scan_exclusive_prefix_sums (λ _ _, 0) 3 [0; 0; 0] [5; -2; 7]).
  - unfold maxThreadsPerBlock. lia.
  - reflexivity.
  - reflexivity.
  - int_list.
Defined.

(** C1 as stated fails when a prefix sum leaves the range of [int]: on
    [2147483647; 1; 0] element 2 of the scan is -2147483648, not the sum
    2147483648 of the first two elements. *)
Lemma scan_exact_sum_overflows :
  ∃ out, scan (λ _ _, 0) 3 [0; 0; 0] [2147483647; 1; 0] = Some out
    ∧ out !! 2%nat = Some (-2147483648)
    ∧ Zsum (take 2 [2147483647; 1; 0]) = 2147483648
    ∧ out !! 2%nat ≠ Some (Zsum (take 2 [2147483647; 1; 0])).
Proof.
  exists [0; 2147483647; -2147483648].
  split; [by vm_compute|]. split; [done|]. split; [done|]. by vm_compute.
Qed.

(** C2.  For every n ≥ 1 within the single-group thread ceiling and every
    input of length n, [compact] returns as count the number of non-zero
    elements of the input, the first count entries of the output are the
    non-zero elements of the input in their original order, and the count is
    mask[n-1] + scannedMask[n-1] for the mask and the scanned mask that the
    kernels compute. *)
Theorem compact_keeps_nonzero junk n odata idata :
  1 ≤ n ≤ maxThreadsPerBlock →
  Z.of_nat (length idata) = n → Z.of_nat (length odata) = n →
  ∃ count out mask scannedMask,
    compact junk n odata idata = Some (count, out)
    ∧ count = Z.of_nat (length (filter (λ x, x ≠ 0) idata))
    ∧ take (Z.to_nat count) out = filter (λ x, x ≠ 0) idata
    ∧ kernMapToBoolean n n (cudaMalloc (junk 2%nat) n) idata = Some mask
    ∧ kernelEfficientScan n (cudaMalloc (junk 3%nat) n) mask n
        (pow2 (ilog2ceil n)) = Some scannedMask
    ∧ count = get mask (n - 1) + get scannedMask (n - 1).
Proof.
  intros Hn Hi Ho. pose proof ceiling_fits as Hc.
  exists (Z.of_nat (length (kept idata))),
    (kept idata ++ drop (length (kept idata)) odata),
    (mask_of idata), (exclusive_scan (mask_of idata)).
  split; [apply compact_spec; done || lia|].
  split; [done|]. split; [by rewrite Nat2Z.id, take_app_length|].
  split; [apply kernMapToBoolean_spec; done || lia ||
            (apply cudaMalloc_length; lia)|].
  split.
  - apply kernelEfficientScan_spec;
      [lia | by rewrite length_mask_of | apply cudaMalloc_length; lia
      | apply mask_of_int].
  - rewrite <-(count_last idata n) by (done || lia).
    unfold Int.add. apply wrap_id.
    rewrite get_mask_of, get_scan_mask by lia.
    pose proof (length_kept_le (take (Z.to_nat (n - 1)) idata)) as Hle.
    rewrite length_take in Hle.
    unfold maxThreadsPerBlock, Int.in_range, Int.min_signed, Int.max_signed in *.
    case_bool_decide; lia.
Qed.

Lemma compact_keeps_nonzero_witness :
  ∃ count out mask scannedMask,
    compact (λ _ _, 0) 6 [9; 9; 9; 9; 9; 9] [1; 0; 0; 3; 0; 1]
      = Some (count, out)
    ∧ count = Z.of_nat (length (filter (λ x, x ≠ 0) [1; 0; 0; 3; 0; 1]))
    ∧ take (Z.to_nat count) out = filter (λ x, x ≠ 0) [1; 0; 0; 3; 0; 1]
    ∧ kernMapToBoolean 6 6 (cudaMalloc (λ _, 0) 6) [1; 0; 0; 3; 0; 1]
        = Some mask
    ∧ kernelEfficientScan 6 (cudaMalloc (λ _, 0) 6) mask 6
        (pow2 (ilog2ceil 6)) = Some scannedMask
    ∧ count = get mask (6 - 1) + get scannedMask (6 - 1).
Proof.
  apply (compact_keeps_nonzero (λ _ _, 0) 6 [9; 9; 9; 9; 9; 9]
           [1; 0; 0; 3; 0; 1]).
  - unfold maxThreadsPerBlock. lia.
  - reflexivity.
  - reflexivity.
Defined.

(** C3.  Scenario A: on [1,0,0,3,0,1] with n = 6, [scan] returns
    [0,1,1,1,4,4], and [compact] returns count 3 and an output whose first
    three entries are [1,3,1] (the other entries of the caller's array keep
    their contents). *)
Theorem scenario_A junk o0 o1 o2 o3 o4 o5 :
  scan junk 6 [o0; o1; o2; o3; o4; o5] [1; 0; 0; 3; 0; 1]
    = Some [0; 1; 1; 1; 4; 4]
  ∧ compact junk 6 [o0; o1; o2; o3; o4; o5] [1; 0; 0; 3; 0; 1]
    = Some (3, [1; 3; 1; o3; o4; o5]).
Proof. split; by vm_compute. Qed.

(** The other scenarios of the specification: a single zero, a single
    non-zero element, and a power-of-two input without zeros. *)
Example scenario_B junk o0 :
  scan junk 1 [o0] [0] = Some [0] ∧ compact junk 1 [o0] [0] = Some (0, [o0]).
Proof. split; by vm_compute. Qed.

Example scenario_C junk o0 : compact junk 1 [o0] [5] = Some (1, [5]).
Proof. by vm_compute. Qed.

Example scenario_D junk o0 o1 o2 o3 o4 o5 o6 o7 :
  scan junk 8 [o0; o1; o2; o3; o4; o5; o6; o7] [4; 2; 1; 6; 5; 1; 3; 2]
    = Some [0; 4; 6; 7; 13; 18; 19; 22]
  ∧ compact junk 8 [o0; o1; o2; o3; o4; o5; o6; o7] [4; 2; 1; 6; 5; 1; 3; 2]
    = Some (8, [4; 2; 1; 6; 5; 1; 3; 2]).
Proof. split; by vm_compute. Qed.

(** C4.  For every n ≥ 1 that a block can be launched with, and whatever
    the size n is a power of two or not: no load or store of the run of
    the scan kernel is out of range of its length-n arrays, and every pair
    (a, b) = (n-1-t*offset, a-offset/2) that passes the guard a ≥ 0, b ≥ 0
    at a level of either sweep (d threads, d * offset = N, offset even)
    lies within [0, n). *)
Theorem sweep_accesses_in_range n g_odata g_idata :
  1 ≤ n ≤ maxThreadsPerBlock →
  Z.of_nat (length g_idata) = n → Z.of_nat (length g_odata) = n →
  Forall Int.in_range g_idata →
  is_Some (kernelEfficientScan n g_odata g_idata n (pow2 (ilog2ceil n)))
  ∧ ∀ d offset h index a b,
      0 ≤ index → 0 ≤ d → 1 ≤ h → offset = 2 * h →
      d * offset = pow2 (ilog2ceil n) →
      sweep_indices n d offset index = Some (a, b) →
      a = n - 1 - index * offset ∧ b = a - offset `div` 2
      ∧ 0 ≤ a < n ∧ 0 ≤ b < n.
Proof.
  intros Hn Hi Ho Hint. pose proof ceiling_fits as Hc. split.
  - rewrite kernelEfficientScan_spec by (done || lia). by eexists.
  - intros d offset h index a b Hidx Hd Hh Hoff HN Hsw.
    destruct (padded_size n ltac:(lia)) as (k & Hk & HnN & Hk29).
    pose proof (p2_small k ltac:(lia)).
    rewrite (sweep_indices_exact n d offset h) in Hsw
      by (done || unfold max_block in *; lia).
    cbv zeta in Hsw. case_bool_decide as Hg; [|done].
    injection Hsw as <- <-.
    rewrite (half_offset offset h Hoff) in *.
    assert (0 ≤ index * offset) by nia. lia.
Qed.

Lemma sweep_accesses_in_range_witness :
  is_Some (kernelEfficientScan 5 [0; 0; 0; 0; 0] [3; 1; 4; 1; 5] 5
             (pow2 (ilog2ceil 5)))
  ∧ ∀ d offset h index a b,
      0 ≤ index → 0 ≤ d → 1 ≤ h → offset = 2 * h →
      d * offset = pow2 (ilog2ceil 5) →
      sweep_indices 5 d offset index = Some (a, b) →
      a = 5 - 1 - index * offset ∧ b = a - offset `div` 2
      ∧ 0 ≤ a < 5 ∧ 0 ≤ b < 5.
Proof.
  apply (sweep_accesses_in_range 5 [0; 0; 0; 0; 0] [3; 1; 4; 1; 5]).
  - unfold maxThreadsPerBlock. lia.
  - reflexivity.
  - reflexivity.
  - int_list.
Defined.

Example sweep_indices_n5 :
  sweep_indices 5 4 2 2 = None ∧ sweep_indices 5 4 2 1 = Some (2, 1)
  ∧ sweep_indices 5 2 4 1 = None ∧ sweep_indices 5 1 8 0 = Some (4, 0).
Proof. by vm_compute. Qed.

(** C5.  For every n ≥ 1 that a block can be launched with and every input
    of length n, the three kernels of [compact] (and the fused kernel alike)
    produce the 0/1 mask of the non-zero elements, a scanned mask and an
    output such that: any two distinct indices with mask 1 have distinct
    scannedMask entries, and for every i with mask[i] = 1 the output holds
    input[i] at position scannedMask[i], which is inside the array. *)
Theorem scatter_destinations_disjoint n idata g_odata g_sdata g_bdata :
  1 ≤ n ≤ maxThreadsPerBlock →
  Z.of_nat (length idata) = n → Z.of_nat (length g_odata) = n →
  Z.of_nat (length g_sdata) = n → Z.of_nat (length g_bdata) = n →
  ∃ out scannedMask mask,
    compact_kernels n g_odata idata g_sdata g_bdata (pow2 (ilog2ceil n))
      = Some (out, scannedMask, mask)
    ∧ kernelEfficientCompact n g_odata idata g_sdata g_bdata n
        (pow2 (ilog2ceil n)) = Some (out, scannedMask, mask)
    ∧ (∀ i, 0 ≤ i < n →
         get mask i = if bool_decide (get idata i ≠ 0) then 1 else 0)
    ∧ (∀ i j, 0 ≤ i < n → 0 ≤ j < n → i ≠ j →
         get mask i = 1 → get mask j = 1 →
         get scannedMask i ≠ get scannedMask j)
    ∧ (∀ i, 0 ≤ i < n → get mask i = 1 →
         0 ≤ get scannedMask i < n
         ∧ get out (get scannedMask i) = get idata i).
Proof.
  intros Hn Hi Ho Hs Hb. pose proof ceiling_fits as Hc.
  exists (kept idata ++ drop (length (kept idata)) g_odata),
    (exclusive_scan (mask_of idata)), (mask_of idata).
  rewrite fused_phases, compact_kernels_spec by (done || lia).
  split; [done|]. split; [done|].
  assert (∀ i, 0 ≤ i < n → get (mask_of idata) i = 1 → get idata i ≠ 0)
    as Hnz.
  { intros i Hi' Hm. rewrite get_mask_of in Hm by lia.
    by case_bool_decide. }
  assert (∀ i j, 0 ≤ i < j → j < n → get (mask_of idata) i = 1 →
            get (exclusive_scan (mask_of idata)) i
            < get (exclusive_scan (mask_of idata)) j) as Hlt.
  { intros i j Hij Hj Hm. apply scan_mask_lt; done || lia. }
  split; [|split].
  - intros i Hi'. apply get_mask_of. lia.
  - intros i j Hi' Hj' Hne Hmi Hmj.
    destruct (Z.lt_total i j) as [Hij|[Hij|Hij]]; [|done|].
    + pose proof (Hlt i j ltac:(lia) ltac:(lia) Hmi). lia.
    + pose proof (Hlt j i ltac:(lia) ltac:(lia) Hmj). lia.
  - intros i Hi' Hm. rewrite get_scan_mask by lia.
    pose proof (kept_lookup idata (Z.to_nat i) ltac:(lia)) as Hl.
    rewrite Z2Nat.id in Hl by lia. specialize (Hl (Hnz i Hi' Hm)).
    pose proof (lookup_lt_Some _ _ _ Hl) as Hlen.
    pose proof (length_kept_le idata).
    split; [lia|]. unfold get at 1. rewrite Nat2Z.id.
    by rewrite lookup_app_l, Hl by done.
Qed.

Lemma scatter_destinations_disjoint_witness :
  ∃ out scannedMask mask,
    compact_kernels 6 [9; 9; 9; 9; 9; 9] [1; 0; 0; 3; 0; 1] [8; 8; 8; 8; 8; 8]
      [7; 7; 7; 7; 7; 7] (pow2 (ilog2ceil 6))
      = Some (out, scannedMask, mask)
    ∧ kernelEfficientCompact 6 [9; 9; 9; 9; 9; 9] [1; 0; 0; 3; 0; 1]
        [8; 8; 8; 8; 8; 8] [7; 7; 7; 7; 7; 7] 6 (pow2 (ilog2ceil 6))
        = Some (out, scannedMask, mask)
    ∧ (∀ i, 0 ≤ i < 6 →
         get mask i
         = if bool_decide (get [1; 0; 0; 3; 0; 1] i ≠ 0) then 1 else 0)
    ∧ (∀ i j, 0 ≤ i < 6 → 0 ≤ j < 6 → i ≠ j →
         get mask i = 1 → get mask j = 1 →
         get scannedMask i ≠ get scannedMask j)
    ∧ (∀ i, 0 ≤ i < 6 → get mask i = 1 →
         0 ≤ get scannedMask i < 6
         ∧ get out (get scannedMask i) = get [1; 0; 0; 3; 0; 1] i).
Proof.
  apply (scatter_destinations_disjoint 6 [1; 0; 0; 3; 0; 1] [9; 9; 9; 9; 9; 9]
           [8; 8; 8; 8; 8; 8] [7; 7; 7; 7; 7; 7]).
  - unfold maxThreadsPerBlock. lia.
  - reflexivity.
  - reflexivity.
  - reflexivity.
  - reflexivity.
Defined.

(** C6.  For every n ≥ 1 within the single-group thread ceiling and every
    input of length n without zero elements, [compact] returns count n and
    the input itself as output. *)
Theorem compact_no_zeros junk n odata idata :
  1 ≤ n ≤ maxThreadsPerBlock →
  Z.of_nat (length idata) = n → Z.of_nat (length odata) = n →
  Forall (λ x, x ≠ 0) idata →
  compact junk n odata idata = Some (n, idata).
Proof.
  intros Hn Hi Ho Hnz. pose proof ceiling_fits as Hc.
  rewrite compact_spec by (done || lia).
  rewrite (kept_all idata Hnz), Hi, drop_ge by lia.
  by rewrite app_nil_r.
Qed.

Lemma compact_no_zeros_witness :
  compact (λ _ _, 0) 8 [0; 0; 0; 0; 0; 0; 0; 0] [4; 2; 1; 6; 5; 1; 3; 2]
  = Some (8, [4; 2; 1; 6; 5; 1; 3; 2]).
Proof.
  apply (compact_no_zeros (λ _ _, 0) 8 [0; 0; 0; 0; 0; 0; 0; 0]
           [4; 2; 1; 6; 5; 1; 3; 2]).
  - unfold maxThreadsPerBlock. lia.
  - reflexivity.
  - reflexivity.
  - repeat (constructor; [lia|]). constructor.
Defined.

(** C7.  For every n ≥ 1 within the single-group thread ceiling, [compact]
    on the all-zero input of length n returns count 0 (and leaves the
    caller's output array as it was). *)
Theorem compact_all_zeros junk n odata :
  1 ≤ n ≤ maxThreadsPerBlock →
  Z.of_nat (length odata) = n →
  compact junk n odata (replicate (Z.to_nat n) 0) = Some (0, odata).
Proof.
  intros Hn Ho. pose proof ceiling_fits as Hc.
  rewrite compact_spec by (done || lia || (rewrite length_replicate; lia)).
  by rewrite kept_zeros.
Qed.

Lemma compact_all_zeros_witness :
  compact (λ _ _, 5) 3 [7; 8; 9] (replicate (Z.to_nat 3) 0) = Some (0, [7; 8; 9]).
Proof.
  apply (compact_all_zeros (λ _ _, 5) 3 [7; 8; 9]).
  - unfold maxThreadsPerBlock. lia.
  - reflexivity.
Defined.

(** C8.  For every n ≥ 1 within the single-group thread ceiling and every
    input of length n, the count that [compact] returns is neither negative
    nor greater than n. *)
Theorem compact_count_range junk n odata idata :
  1 ≤ n ≤ maxThreadsPerBlock →
  Z.of_nat (length idata) = n → Z.of_nat (length odata) = n →
  ∃ count out, compact junk n odata idata = Some (count, out) ∧ 0 ≤ count ≤ n.
Proof.
  intros Hn Hi Ho. pose proof ceiling_fits as Hc.
  rewrite compact_spec by (done || lia). do 2 eexists. split; [done|].
  pose proof (length_kept_le idata). lia.
Qed.

Lemma compact_count_range_witness :
  ∃ count out,
    compact (λ _ _, 0) 4 [0; 0; 0; 0] [0; -3; 0; 8] = Some (count, out)
    ∧ 0 ≤ count ≤ 4.
Proof.
  apply (compact_count_range (λ _ _, 0) 4 [0; 0; 0; 0] [0; -3; 0; 8]).
  - unfold maxThreadsPerBlock. lia.
  - reflexivity.
  - reflexivity.
Defined.

(** C9.  For every n and every contents of the four device arrays, the
    fused kernel [kernelEfficientCompact] produces the same mask array, the
    same scanned-mask array and the same scattered output as the three
    kernels that [compact] launches one after the other (map to boolean,
    [kernelEfficientScan] on the mask, scatter). *)
Theorem fused_kernel_refines n N g_odata g_idata g_sdata g_bdata :
  kernelEfficientCompact n g_odata g_idata g_sdata g_bdata n N
  = compact_kernels n g_odata g_idata g_sdata g_bdata N.
Proof. apply fused_phases. Qed.

(** C10.  For every n ≥ 1 that a block can be launched with and every input
    of length n, [compact] changes the caller's array [odata] in the
    positions [0, count) only: the array keeps its length and the positions
    from count on hold what they held before the call. *)
Theorem compact_frame junk n odata idata :
  1 ≤ n ≤ maxThreadsPerBlock →
  Z.of_nat (length idata) = n → Z.of_nat (length odata) = n →
  ∃ count out, compact junk n odata idata = Some (count, out)
    ∧ length out = length odata
    ∧ ∀ i : nat, count ≤ Z.of_nat i → out !! i = odata !! i.
Proof.
  intros Hn Hi Ho. pose proof ceiling_fits as Hc.
  rewrite compact_spec by (done || lia). do 2 eexists. split; [done|].
  pose proof (length_kept_le idata) as Hle.
  split; [rewrite length_app, length_drop; lia|].
  intros i Hci. rewrite lookup_app_r, lookup_drop by lia. f_equal. lia.
Qed.

Lemma compact_frame_witness :
  ∃ count out,
    compact (λ _ _, 0) 4 [11; 12; 13; 14] [0; -3; 0; 8] = Some (count, out)
    ∧ length out = length [11; 12; 13; 14]
    ∧ ∀ i : nat, count ≤ Z.of_nat i → out !! i = [11; 12; 13; 14] !! i.
Proof.
  apply (compact_frame (λ _ _, 0) 4 [11; 12; 13; 14] [0; -3; 0; 8]).
  - unfold maxThreadsPerBlock. lia.
  - reflexivity.
  - reflexivity.
Defined.


(** * Further properties of the code *)

(** ** Threads of a level work on disjoint cells *)

(** X1.  At a level of either sweep (offset even, d * offset at most 2^30)
    two different threads that pass the guard work on four different cells:
    no thread reads or writes a cell that another thread of the level
    writes. *)
Theorem sweep_pairs_disjoint n d offset h t t' a b a' b' :
  1 ≤ n ≤ 2 ^ 30 → 1 ≤ h → offset = 2 * h → 0 ≤ d → d * offset ≤ 2 ^ 30 →
  0 ≤ t → 0 ≤ t' → t ≠ t' →
  sweep_indices n d offset t = Some (a, b) →
  sweep_indices n d offset t' = Some (a', b') →
  a ≠ b ∧ a ≠ a' ∧ a ≠ b' ∧ b ≠ a' ∧ b ≠ b'.
Proof.
  intros Hn Hh Hoff Hd HN Ht Ht' Hne Hs Hs'.
  rewrite (sweep_indices_exact n d offset h) in Hs, Hs' by done.
  cbv zeta in Hs, Hs'. rewrite (half_offset offset h Hoff) in Hs, Hs'.
  case_bool_decide; [|done]. case_bool_decide; [|done].
  injection Hs as <- <-. injection Hs' as <- <-.
  subst offset.
  assert (t' - t ≤ -1 ∨ 1 ≤ t' - t) as Hcase by lia.
  assert (∀ q, (q ≤ -1 ∨ 1 ≤ q) → q * (2 * h) ≠ 0 ∧ q * (2 * h) + h ≠ 0
                                   ∧ q * (2 * h) - h ≠ 0) as Hq.
  { intros q [Hq|Hq]; nia. }
  destruct (Hq (t' - t) Hcase) as (H1 & H2 & H3).
  repeat split; nia.
Qed.

Lemma sweep_pairs_disjoint_witness :
  sweep_indices 5 4 2 0 = Some (4, 3) ∧ sweep_indices 5 4 2 1 = Some (2, 1)
  ∧ (4 ≠ 3 ∧ 4 ≠ 2 ∧ 4 ≠ 1 ∧ 3 ≠ 2 ∧ 3 ≠ 1).
Proof.
  split; [reflexivity|]. split; [reflexivity|].
  apply (sweep_pairs_disjoint 5 4 2 1 0 1 4 3 2 1); try lia; reflexivity.
Defined.

(** ** Schedules and launch parameters of the scan kernel *)



(** X3.  The kernel does not need the smallest padded size: with any power
    of two N = 2^k that is at least n (and at most 2^29) it computes the
    same exclusive scan of its n inputs. *)
Theorem scan_kernel_any_padding n (k : nat) g_odata g_idata :
  1 ≤ n → n ≤ 2 ^ Z.of_nat k → (k ≤ 29)%nat →
  Z.of_nat (length g_idata) = n → Z.of_nat (length g_odata) = n →
  Forall Int.in_range g_idata →
  kernelEfficientScan n g_odata g_idata n (2 ^ Z.of_nat k)
  = Some (exclusive_scan g_idata).
Proof.
  intros Hn HN Hk Hi Ho Hint.
  destruct (kernelEfficientScan_on_spec g_idata n k (threads n)
              Hn HN Hk (threads_nodup n) (threads_block n)
              Hi Hint g_odata Ho) as (out & Hrun & Hlen & Hget).
  unfold kernelEfficientScan. fold (p2 k). rewrite Hrun. f_equal.
  apply get_ext; [rewrite length_exclusive_scan; lia|].
  intros i Hi'. rewrite get_exclusive_scan by lia. apply Hget. lia.
Qed.

Lemma scan_kernel_any_padding_witness :
  kernelEfficientScan 3 [9; 9; 9] [5; -2; 7] 3 (2 ^ Z.of_nat 4)
  = Some (exclusive_scan [5; -2; 7]).
Proof.
  apply (scan_kernel_any_padding 3 4 [9; 9; 9] [5; -2; 7]).
  - lia.
  - simpl. lia.
  - lia.
  - reflexivity.
  - reflexivity.
  - int_list.
Defined.

(** A phase in which some thread faults whatever the memory holds has no
    result. *)
Lemma run_threads_fault {S : Type} (body : Z → S → option S) ts t (s : S) :
  t ∈ ts → (∀ s, body t s = None) → run_threads body ts s = None.
Proof.
  intros Hin Hfault. revert s.
  induction ts as [|t0 ts IH]; intros s; [by apply elem_of_nil in Hin|].
  cbn [run_threads]. apply elem_of_cons in Hin as [->|Hin].
  - by rewrite Hfault.
  - destruct (body t0 s); [by apply IH | done].
Qed.

(** X4.  Neither kernel guards its first access by the thread index:
    launched with more threads than [g_idata] has cells, the scan kernel
    (at [g_odata[index] = g_idata[index]]) and the fused kernel (at
    [g_idata[index] == 0]) read outside the array. *)
Theorem kernels_fault_on_oversized_block blockDim n N g_odata g_idata g_sdata g_bdata :
  Z.of_nat (length g_idata) < blockDim →
  kernelEfficientScan blockDim g_odata g_idata n N = None
  ∧ kernelEfficientCompact blockDim g_odata g_idata g_sdata g_bdata n N = None.
Proof.
  intros Hlen.
  assert (Z.of_nat (length g_idata) ∈ threads blockDim) as Hin
    by (apply threads_block; lia).
  assert (load g_idata (Z.of_nat (length g_idata)) = None) as Hload.
  { unfold load. rewrite bool_decide_true by lia.
    apply lookup_ge_None_2. lia. }
  split.
  - unfold kernelEfficientScan, kernelEfficientScan_on.
    rewrite (run_threads_fault _ _ (Z.of_nat (length g_idata))); [done|done|].
    intros s. unfold copy_thread. by rewrite Hload.
  - unfold kernelEfficientCompact. cbv zeta.
    rewrite (run_threads_fault _ _ (Z.of_nat (length g_idata))); [done|done|].
    intros s. unfold mask_thread. by rewrite Hload.
Qed.

Lemma kernels_fault_on_oversized_block_witness :
  kernelEfficientScan 4 [0; 0; 0] [5; -2; 7] 3 4 = None
  ∧ kernelEfficientCompact 4 [0; 0; 0] [5; -2; 7] [0; 0; 0] [0; 0; 0] 3 4 = None.
Proof.
  apply (kernels_fault_on_oversized_block 4 3 4 [0; 0; 0] [5; -2; 7]
           [0; 0; 0] [0; 0; 0]).
  simpl. lia.
Defined.

(** ** The fused kernel *)




(** ** The host functions and the sizes of the caller's arrays *)

Lemma cudaMemcpy_to_device junk n src :
  0 ≤ n ≤ Z.of_nat (length src) →
  cudaMemcpy (cudaMalloc junk n) src n = Some (take (Z.to_nat n) src).
Proof.
  intros Hn. pose proof (cudaMalloc_length junk n ltac:(lia)) as Hlen.
  unfold cudaMemcpy. rewrite bool_decide_true by lia.
  by rewrite drop_ge, app_nil_r by lia.
Qed.

Lemma cudaMemcpy_to_host dst src n :
  Z.of_nat (length src) = n →
  cudaMemcpy dst src n
  = if bool_decide (n ≤ Z.of_nat (length dst))
    then Some (src ++ drop (Z.to_nat n) dst) else None.
Proof.
  intros Hn. unfold cudaMemcpy. case_bool_decide.
  - rewrite bool_decide_true by lia. by rewrite take_ge by lia.
  - by rewrite bool_decide_false by lia.
Qed.



(** X7.  [scan] checks neither n nor the sizes of the caller's arrays: with
    a negative n, or with [idata] or [odata] shorter than n, one of its two
    copies runs outside an array, and [scan] has no result. *)
Theorem scan_faults_on_short_arrays junk n odata idata :
  n < 0 ∨ Z.of_nat (length idata) < n ∨ Z.of_nat (length odata) < n →
  scan junk n odata idata = None.
Proof.
  intros Hbad. unfold scan. cbv zeta.
  destruct (decide (0 ≤ n ≤ Z.of_nat (length idata))) as [Hok|Hko].
  - rewrite cudaMemcpy_to_device by done. cbn [mbind option_bind].
    destruct (kernelEfficientScan _ _ _ _ _) as [g|]; [|done].
    cbn [mbind option_bind]. unfold cudaMemcpy.
    by rewrite bool_decide_false by lia.
  - unfold cudaMemcpy.
    by rewrite (bool_decide_false (0 ≤ n ≤ Z.of_nat (length idata) ∧ _))
      by lia.
Qed.

Lemma scan_faults_on_short_arrays_witness :
  scan (λ _ _, 0) 3 [9; 9] [5; -2; 7] = None.
Proof.
  apply (scan_faults_on_short_arrays (λ _ _, 0) 3 [9; 9] [5; -2; 7]).
  right. right. simpl. lia.
Defined.



Example compact_room_examples :
  compact (λ _ _, 0) 4 [9; 9] [0; -3; 0; 8; 1] = Some (2, [-3; 8])
  ∧ compact (λ _ _, 0) 4 [9] [0; -3; 0; 8; 1] = None.
Proof. split; by vm_compute. Qed.

(** X9.  On the empty input (n = 0) no thread runs.  [scan] copies nothing
    and returns the caller's [odata] as it was; [compact] then reads
    [g_bdata[n - 1]], the cell before the array, and has no result. *)
Theorem empty_input junk odata idata :
  scan junk 0 odata idata = Some odata
  ∧ compact junk 0 odata idata = None.
Proof.
  split.
  - unfold scan. cbv zeta.
    rewrite cudaMemcpy_to_device by lia. cbn [mbind option_bind].
    change (kernelEfficientScan 0 (cudaMalloc (junk 1%nat) 0)
              (take (Z.to_nat 0) idata) 0 (pow2 (ilog2ceil 0)))
      with (Some (@nil Z)).
    cbn [mbind option_bind]. rewrite cudaMemcpy_to_host by done.
    by rewrite bool_decide_true by lia.
  - unfold compact. cbv zeta.
    rewrite cudaMemcpy_to_device by lia. reflexivity.
Qed.

(** ** The up-sweep as a reduction *)

(** X10.  The up-sweep alone is a reduction: run by a block of n threads
    (1 ≤ n ≤ 2^29) on n [int]s, the loop ends with offset = 2 * N and
    leaves in the last cell the sum of all the inputs, in [int]
    arithmetic. *)
Theorem upsweep_reduces n xs :
  1 ≤ n ≤ max_block → Z.of_nat (length xs) = n → Forall Int.in_range xs →
  let N := pow2 (ilog2ceil n) in
  ∃ g, upsweep (Z.to_nat N) (threads n) n (Int.div N 2) 2 xs
       = Some (2 * N, g)
    ∧ Z.of_nat (length g) = n
    ∧ get g (n - 1) = Int.wrap (Zsum xs).
Proof.
  intros Hn Hlen Hint. cbv zeta.
  destruct (padded_size n Hn) as (k & -> & HN & Hk).
  pose proof (p2_small k ltac:(lia)) as HNs. pose proof (p2_pos k) as HNp.
  assert (k ≤ Z.to_nat (p2 k))%nat as Hfuel.
  { pose proof (Z.pow_gt_lin_r 2 (Z.of_nat k) ltac:(lia) ltac:(lia)).
    unfold p2. lia. }
  rewrite div_exact
    by (unfold Int.in_range, Int.min_signed, Int.max_signed; lia).
  destruct (upsweep_spec xs n k (threads n) ltac:(lia) HN Hk
              (threads_nodup n) (threads_block n) k 0%nat (Z.to_nat (p2 k)) xs
              ltac:(lia) Hfuel
              (up_inv_init xs n k (threads n) ltac:(lia) HN Hk
                 (threads_nodup n) (threads_block n) Hlen Hint))
    as (g & Hrun & Hlen' & Hget).
  change (p2 1) with 2 in Hrun. exists g.
  rewrite Hrun, p2_S. split; [done|]. split; [done|].
  rewrite Hget by lia.
  replace (n - 1 - (n - 1)) with 0 by lia.
  rewrite blk_divisible by (apply Z.mod_0_l; lia).
  replace (n - 1 + 1) with n by lia.
  rewrite (psum_nonpos xs (n - p2 k)) by lia.
  rewrite psum_all by lia. f_equal. lia.
Qed.

Lemma upsweep_reduces_witness :
  let N := pow2 (ilog2ceil 5) in
  ∃ g, upsweep (Z.to_nat N) (threads 5) 5 (Int.div N 2) 2 [3; 1; 4; 1; 5]
       = Some (2 * N, g)
    ∧ Z.of_nat (length g) = 5
    ∧ get g (5 - 1) = Int.wrap (Zsum [3; 1; 4; 1; 5]).
Proof.
  apply (upsweep_reduces 5 [3; 1; 4; 1; 5]).
  - unfold max_block. lia.
  - reflexivity.
  - int_list.
Defined.

(** ** The scan as a sequential recurrence *)



(** ** More on the result of [compact] *)








(** X14.  [compact] checks neither n nor the size of [idata]: with a
    negative n, or with fewer than n elements in [idata], its first copy
    runs outside an array and [compact] has no result. *)
Theorem compact_faults_on_short_input junk n odata idata :
  n < 0 ∨ Z.of_nat (length idata) < n →
  compact junk n odata idata = None.
Proof.
  intros Hbad. unfold compact, cudaMemcpy. cbv zeta.
  by rewrite (bool_decide_false (0 ≤ n ≤ Z.of_nat (length idata) ∧ _)) by lia.
Qed.

Lemma compact_faults_on_short_input_witness :
  compact (λ _ _, 0) 4 [9; 9; 9; 9] [0; -3; 8] = None.
Proof.
  apply (compact_faults_on_short_input (λ _ _, 0) 4 [9; 9; 9; 9] [0; -3; 8]).
  right. simpl. lia.
Defined.
